(** * Magnetic-ordering workflow of atomate: a shallow embedding

    The development follows [atomate/vasp/workflows/base/magnetism.py],
    function [get_wf_magnetic_orderings].  Python objects of pymatgen and
    FireWorks that the function only consumes (the magnetic analyzer, the
    enumeration transformation, the structure matcher, the nearest-neighbour
    finder) are fields of the class [Pymatgen]; the argument checks of the
    constraint's constructor, which decide whether a branch of the function
    can be run at all, are written out; everything the function itself
    computes is defined here and follows the source block by block. *)

From Stdlib Require Import QArith Qcanon.
From stdpp Require Import gmap strings list pretty relations.

Open Scope string_scope.
Open Scope list_scope.
Open Scope Z_scope.

(** ** Data model *)

(** A pymatgen [Specie]: element symbol, optional oxidation state and the
    optional [spin] property.  Moments and spins are kept as integers in a
    fixed unit; nothing below computes with their value. *)
Record Specie := mkSpecie {
  symbol : string;
  oxi_state : option Z;
  spin : option Z
}.

#[global] Instance Specie_eq_dec : EqDecision Specie.
Proof. solve_decision. Defined.

(** A site: its species, its fractional coordinates (fixed point) and the
    per-site dictionary [site.properties]. *)
Record Site := mkSite {
  specie : Specie;
  frac_coords : Z * Z * Z;
  properties : gmap string Z
}.

Record Structure := mkStructure {
  sites : list Site
}.

(** [len(structure)] *)
Definition len (s : Structure) : nat := length (sites s).

(** [name in structure.site_properties]: the keys of [site_properties] are
    the union of the keys of the sites' dictionaries. *)
Definition has_site_property (name : string) (s : Structure) : bool :=
  existsb (λ st, bool_decide (is_Some (properties st !! name))) (sites s).

(** [structure.site_properties[name]]: one entry per site, [None] where the
    site has no such key; the lookup itself fails when no site has it. *)
Definition site_property (name : string) (s : Structure) : option (list (option Z)) :=
  if has_site_property name s
  then Some (map (λ st, properties st !! name) (sites s))
  else None.

(** [structure.add_site_property(name, values)] writes [values[i]] into the
    dictionary of site [i], in place; pymatgen refuses a list of the wrong
    length. *)
Definition add_site_property (name : string) (values : list Z) (s : Structure)
  : option Structure :=
  if bool_decide (length values = len s)
  then Some (mkStructure
               (zip_with (λ st v, mkSite (specie st) (frac_coords st)
                                         (<[name := v]> (properties st)))
                         (sites s) values))
  else None.

(** [structure.remove_site_property(name)] *)
Definition remove_site_property (name : string) (s : Structure) : Structure :=
  mkStructure (map (λ st, mkSite (specie st) (frac_coords st)
                                 (delete name (properties st))) (sites s)).

(** [structure.add_spin_by_site(spins)]: every site's species is rebuilt
    with the given spin; a list of the wrong length is refused. *)
Definition add_spin_by_site (spins : list (option Z)) (s : Structure)
  : option Structure :=
  if bool_decide (length spins = len s)
  then Some (mkStructure
               (zip_with (λ st sp, mkSite (mkSpecie (symbol (specie st))
                                                    (oxi_state (specie st)) sp)
                                          (frac_coords st) (properties st))
                         (sites s) spins))
  else None.

(** [pymatgen.analysis.magnetism.analyzer.Ordering] *)
Inductive Ordering := FM | AFM | FiM | NM | Unknown.

#[global] Instance Ordering_eq_dec : EqDecision Ordering.
Proof. solve_decision. Defined.

(** [Ordering.value] *)
Definition Ordering_value (o : Ordering) : string :=
  match o with
  | FM => "FM" | AFM => "AFM" | FiM => "FiM" | NM => "NM" | Unknown => "Unknown"
  end.

(** An argument that the source passes either as one value or as a list. *)
Inductive one_or_many (A : Type) :=
  | One (a : A)
  | Many (l : list A).
Arguments One {A} a.
Arguments Many {A} l.

(** [MagOrderParameterConstraint(order_parameter, species_constraints=None,
    site_constraint_name=None, site_constraints=None)] *)
Record MagOrderParameterConstraint := mkConstraint {
  order_parameter : Qc;
  species_constraints : option (one_or_many string);
  site_constraint_name : option string;
  site_constraints : option (one_or_many Z)
}.

Definition op_half : Qc := Q2Qc (1 # 2).
Definition op_one : Qc := Q2Qc 1.

(** One use of the external generator:
    [MagOrderingTransformation(mag_species_spin, order_parameter=...,
       max_cell_size=..., timeout=...)
       .apply_transformation(structure, return_ranked_list=...)]. *)
Record EnumCall := mkEnumCall {
  ec_mag_species_spin : gmap string Z;
  ec_order_parameter : list MagOrderParameterConstraint;
  ec_max_cell_size : Z;
  ec_timeout : option Z;
  ec_structure : Structure;
  ec_return_ranked_list : Z
}.

(** What a transformation hands back: a bare structure, or a ranked list
    whose entries are bare structures or dicts with a ["structure"] key. *)
Inductive ranked_entry :=
  | Bare (s : Structure)
  | Wrapped (s : Structure).

Inductive trans_output :=
  | SingleStructure (s : Structure)
  | Ranked (l : list ranked_entry).

(** Python exceptions that can leave the function. *)
Inductive exn :=
  | ValueError (msg : string)
  | ZeroDivisionError
  | KeyError (key : string)
  | IndexError
  | UnboundLocalError (name : string)
  | GeneratorError (msg : string).

(** The attributes of a [CollinearMagneticStructureAnalyzer] that the
    workflow reads.  The analyzer works on its own copy of the structure it
    is given, so it is a value fixed at construction. *)
Record Analyzer := mkAnalyzer {
  an_structure : Structure;
  an_is_collinear : bool;
  an_ordering : Ordering;
  an_magnetic_species_and_magmoms : gmap string Z;
  an_types_of_magnetic_specie : list Specie;
  an_number_of_magnetic_sites : nat;
  an_number_of_unique_magnetic_sites : nat;
  an_get_ferromagnetic_structure : Structure;
  an_matches_ordering : Structure → bool
}.

(** The capabilities consumed from pymatgen and the run-scoped identifier. *)
Class Pymatgen := {
  reduced_formula : Structure → string;
  is_ordered : Structure → bool;
  get_primitive_structure : Structure → bool → Structure;
  CollinearMagneticStructureAnalyzer :
    Structure → option (gmap string Z) → string → Analyzer;
  get_cn : Structure → nat → Z;
  apply_transformation : EnumCall → exn + trans_output;
  matches : Structure → Structure → bool;
  str_specie : Specie → string;
  uuid4 : string
}.

(** ** The workflow graph (FireWorks) *)

Abbreviation incar := (gmap string Z).

(** The task a Firework carries. *)
Inductive FWTask :=
  | OptimizeTask (s : Structure) (vis_kwargs : gmap string incar)
  | StaticTask (s : Structure) (perform_bader : bool)
  | MagneticOrderingsToDB (wf_uuid : string) (parent_structure : Structure)
      (strategy : option (gmap string incar)) (perform_bader : bool).

(** Modelled from the spec: the [Firework] class of FireWorks and the
    [OptimizeFW]/[StaticFW] subclasses of atomate, as TaskNodes: an identity,
    a role with its payload, and the predecessors given as [parents].  The
    identity of the Python object is a serial number taken at creation. *)
Record Firework := mkFirework {
  fw_id : nat;
  fw_name : string;
  fw_task : FWTask;
  fw_parents : list nat
}.

(** Modelled from the spec: the [Workflow] of FireWorks as the WorkflowGraph,
    its nodes in creation order; the dependency edges are read off the
    nodes' [parents]. *)
Record Workflow := mkWorkflow {
  wf_fws : list Firework;
  wf_name : string;
  wf_meta : option (string * string * string);
  wf_tags : list string
}.

(** [Workflow(fws, name=...)] *)
Definition Workflow_of (fws : list Firework) (name : string) : Workflow :=
  mkWorkflow fws name None [].

(** Modelled from the spec: the powerups [add_additional_fields_to_taskdocs]
    and [add_tags] of atomate, which annotate the graph and leave its nodes
    and edges as they are. *)
Definition add_additional_fields_to_taskdocs (wf : Workflow)
    (wf_meta : string * string * string) : Workflow :=
  mkWorkflow (wf_fws wf) (wf_name wf) (Some wf_meta) (wf_tags wf).

Definition add_tags (wf : Workflow) (tags : list string) : Workflow :=
  mkWorkflow (wf_fws wf) (wf_name wf) (wf_meta wf) (wf_tags wf ++ tags).

Definition is_relax (fw : Firework) : bool :=
  match fw_task fw with OptimizeTask _ _ => true | _ => false end.
Definition is_static (fw : Firework) : bool :=
  match fw_task fw with StaticTask _ _ => true | _ => false end.
Definition is_aggregate (fw : Firework) : bool :=
  match fw_task fw with MagneticOrderingsToDB _ _ _ _ => true | _ => false end.

(** The structure a relax or static node works on. *)
Definition fw_structure (fw : Firework) : option Structure :=
  match fw_task fw with
  | OptimizeTask s _ | StaticTask s _ => Some s
  | MagneticOrderingsToDB _ _ _ _ => None
  end.

(** [a] is a direct predecessor of [b] in the graph. *)
Definition wf_edge (wf : Workflow) (a b : nat) : Prop :=
  ∃ fw, fw ∈ wf_fws wf ∧ fw_id fw = b ∧ a ∈ fw_parents fw.

(** ** Effects: the log of generator calls and exceptions *)

Inductive outcome (A : Type) :=
  | Ok (a : A)
  | Raise (e : exn).
Arguments Ok {A} a.
Arguments Raise {A} e.

(** A computation reads and extends the log of generator calls made so far
    and either yields a value or raises. *)
Definition M (A : Type) : Type := list EnumCall → outcome A * list EnumCall.

Definition ret {A} (a : A) : M A := λ log, (Ok a, log).
Definition raise {A} (e : exn) : M A := λ log, (Raise e, log).
Definition bind {A B} (m : M A) (k : A → M B) : M B :=
  λ log, match m log with
         | (Ok a, log') => k a log'
         | (Raise e, log') => (Raise e, log')
         end.

Declare Scope py_scope.
Delimit Scope py_scope with py.
Notation "x ⇐ m ;; k" := (bind m (λ x, k))
  (at level 100, m at next level, right associativity) : py_scope.
Notation "m ;;; k" := (bind m (λ _, k))
  (at level 100, right associativity) : py_scope.
Open Scope py_scope.

(** A Python lookup that raises when the key or index is absent. *)
Definition lookup_or_raise {A} (o : option A) (e : exn) : M A :=
  match o with Some a => ret a | None => raise e end.

(** [for x in xs: acc = body(acc, x)] *)
Fixpoint for_each {A S} (xs : list A) (body : S → A → M S) (acc : S) : M S :=
  match xs with
  | [] => ret acc
  | x :: xs' => acc' ⇐ body acc x ;; for_each xs' body acc'
  end.

(** ** The parameters of [get_wf_magnetic_orderings] *)

Record Args := mkArgs {
  structure : Structure;
  vasp_cmd : string;
  db_file : string;
  default_magmoms : option (gmap string Z);
  respect_input_magmoms : string;
  calculate_magmoms : string;
  attempt_ferrimagnetic : option bool;
  attempt_afm_by_motif : bool;
  num_orderings : Z;
  max_cell_size : option Z;
  vasp_input_set_kwargs : option (gmap string incar);
  perform_bader : bool;
  timeout : option Z
}.

#[global] Instance Specie_countable : Countable Specie.
Proof.
  apply (inj_countable' (λ sp, (symbol sp, oxi_state sp, spin sp))
                        (λ t, mkSpecie t.1.1 t.1.2 t.2)).
  by intros [].
Defined.

(** [enumerate(l)] *)
Definition enumerate {A} (l : list A) : list (nat * A) := imap (λ i x, (i, x)) l.

(** [matches.index(True)] *)
Fixpoint index_true (l : list bool) : option nat :=
  match l with
  | [] => None
  | b :: l' => if b then Some 0%nat else S <$> index_true l'
  end.

(** Truth value of what a transformation returned: a [Structure] is a
    sequence of sites, a ranked list is a list. *)
Definition truthy_output (o : trans_output) : bool :=
  match o with
  | SingleStructure s => negb (len s =? 0)%nat
  | Ranked l => negb (length l =? 0)%nat
  end.

Definition entry_structure (e : ranked_entry) : Structure :=
  match e with Bare s => s | Wrapped s => s end.

(** The local helper [_add_structures] (the log message is dropped). *)
Definition _add_structures (ordered_structures : list Structure)
    (structures_to_add : trans_output) : list Structure :=
  if truthy_output structures_to_add then
    let l := match structures_to_add with
             | SingleStructure s => [Bare s]
             | Ranked l => l
             end in
    ordered_structures ++ map entry_structure l
  else ordered_structures.

(** [max_cell_size if max_cell_size else max(1, int(4/num_mag_sites))]:
    [None] and [0] are both false in Python; the quotient of two positive
    integers truncated by [int] is the integer quotient. *)
Definition resolve_max_cell_size (max_cell_size : option Z) (num_mag_sites : nat)
  : M Z :=
  match max_cell_size with
  | Some m => if bool_decide (m ≠ 0) then ret m
              else if bool_decide (num_mag_sites = 0%nat) then raise ZeroDivisionError
              else ret (Z.max 1 (Z.of_nat (4 / num_mag_sites)))
  | None => if bool_decide (num_mag_sites = 0%nat) then raise ZeroDivisionError
            else ret (Z.max 1 (Z.of_nat (4 / num_mag_sites)))
  end.

(** The heuristic of lines 248-252 as a function of the two counts and the
    override. *)
Definition ferrimagnetic_heuristic (attempt_ferrimagnetic : option bool)
    (n_unique_cns n_mag_species : nat) : bool :=
  match attempt_ferrimagnetic with
  | None => if bool_decide (1 < n_unique_cns ∨ 1 < n_mag_species)%nat
            then true else false
  | Some b => b
  end.

(** The three families of constraint lists built by the source. *)
Definition afm_constraints `{!Pymatgen} (types_mag_species : list Specie)
  : list MagOrderParameterConstraint :=
  [mkConstraint op_half (Some (Many (map str_specie types_mag_species))) None None].

(** [unique_cns] is a Python set: [elements] stands for the order in which
    the interpreter iterates it, which the source does not control.  These
    are the arguments of lines 306-318; whether the constructor accepts
    them is [constraint_error] below. *)
Definition ferri_by_motif_constraints (unique_cns : gset Z) (cn : Z)
  : list MagOrderParameterConstraint :=
  [mkConstraint op_half None (Some "cn") (Some (One cn));
   mkConstraint op_one None (Some "cn")
     (Some (Many (elements (unique_cns ∖ {[cn]}))))].

Definition ferri_by_species_constraints `{!Pymatgen}
    (types_mag_species : list Specie) (sp : Specie)
  : list MagOrderParameterConstraint :=
  [mkConstraint op_half (Some (One (str_specie sp))) None None;
   mkConstraint op_one
     (Some (Many (map str_specie
                    (elements ((list_to_set types_mag_species : gset Specie) ∖ {[sp]})))))
     None None].

Definition afm_by_motif_constraints (cn : Z) : list MagOrderParameterConstraint :=
  [mkConstraint op_half None (Some "cn") (Some (One cn))].

(** ** The checks of the constraint's constructor

    [MagOrderParameterConstraint.__init__] of pymatgen tests its arguments
    before it stores them: site constraints need a name, a name needs site
    constraints, and the order parameter lies between 0 and 1.  The two
    site arguments are tested by their truth value, so [None], [0] and the
    empty list all count as absent. *)
Definition truthy_site_constraints (sc : option (one_or_many Z)) : bool :=
  match sc with
  | None => false
  | Some (One z) => bool_decide (z ≠ 0)
  | Some (Many l) => negb (length l =? 0)%nat
  end.

Definition truthy_name (name : option string) : bool :=
  match name with
  | None => false
  | Some s => bool_decide (s ≠ "")
  end.

Definition out_of_range (op : Qc) : bool :=
  match (op ?= op_one)%Qc, (op ?= Q2Qc 0)%Qc with
  | Gt, _ | _, Lt => true
  | _, _ => false
  end.

Definition constraint_error (c : MagOrderParameterConstraint) : option exn :=
  if truthy_site_constraints (site_constraints c)
     && negb (truthy_name (site_constraint_name c))
  then Some (ValueError "Specify the name of the site constraint.")
  else if negb (truthy_site_constraints (site_constraints c))
          && truthy_name (site_constraint_name c)
  then Some (ValueError "Please specify some site constraints.")
  else if out_of_range (order_parameter c)
  then Some (ValueError "Order parameter must lie between 0 and 1")
  else None.

(** The constraints of a list are constructed from left to right; the first
    one that is refused ends the run. *)
Definition construct (constraints : list MagOrderParameterConstraint)
  : M (list MagOrderParameterConstraint) :=
  match omap constraint_error constraints with
  | e :: _ => raise e
  | [] => ret constraints
  end.

Section Workflow.
Context `{!Pymatgen}.

(** One pass through the external generator, logged, followed by
    [_add_structures]. *)
Definition call_generator (c : EnumCall) : M trans_output :=
  λ log, match apply_transformation c with
         | inl e => (Raise e, log ++ [c])
         | inr o => (Ok o, log ++ [c])
         end.

Definition enumerate_and_add (c : EnumCall) (ordered_structures : list Structure)
  : M (list Structure) :=
  structures_to_add ⇐ call_generator c ;;
  ret (_add_structures ordered_structures structures_to_add).

(** Lines 233-242: coordination numbers, zeroed on non-magnetic sites. *)
Definition coordination_numbers (structure : Structure)
    (types_mag_species : list Specie) : list Z :=
  let cns := map (λ n, get_cn structure n) (seq 0 (len structure)) in
  let is_magnetic_sites :=
    map (λ site, if bool_decide (specie site ∈ types_mag_species) then true else false)
        (sites structure) in
  zip_with (λ cn (is_magnetic_site : bool), if is_magnetic_site then cn else 0)
           cns is_magnetic_sites.

(** What the function knows when enumeration starts. *)
Record Profile := mkProfile {
  pf_formula : string;
  pf_input_analyzer : Analyzer;
  pf_analyzer : Analyzer;
  pf_sanitized : Structure;       (* [structure] after line 200 *)
  pf_structure : Structure;       (* [structure] after line 241 *)
  pf_max_cell_size : Z;
  pf_cns : list Z;
  pf_unique_cns : gset Z
}.

(** Lines 194-200: the primitive cell without its [magmom] property. *)
Definition sanitized_structure (a : Args) : Structure :=
  let structure0 := get_primitive_structure (structure a) false in
  if has_site_property "magmom" structure0
  then remove_site_property "magmom" structure0 else structure0.

(** Line 183 and line 203: the two analyzers. *)
Definition input_analyzer_of (a : Args) : Analyzer :=
  CollinearMagneticStructureAnalyzer (structure a) (default_magmoms a) "none".

Definition analyzer_of (a : Args) : Analyzer :=
  CollinearMagneticStructureAnalyzer (sanitized_structure a) (default_magmoms a)
                                     "replace_all".

(** Lines 171-242. *)
Definition sanitize_and_profile (a : Args) : M Profile :=
  let formula := reduced_formula (structure a) in
  if negb (is_ordered (structure a)) then
    raise (ValueError ("Please obtain an ordered approximation of the "
                         +:+ "input structure (" +:+ formula +:+ ")."))
  else
  let input_analyzer := input_analyzer_of a in
  if negb (an_is_collinear input_analyzer) then
    raise (ValueError ("Input structure (" +:+ formula +:+ ") is non-collinear."))
  else
  let structure1 := sanitized_structure a in
  let analyzer := analyzer_of a in
  let types_mag_species := an_types_of_magnetic_specie analyzer in
  let num_mag_sites := an_number_of_magnetic_sites analyzer in
  let num_unique_sites := an_number_of_unique_magnetic_sites analyzer in
  if bool_decide (8 < num_unique_sites)%nat then
    raise (ValueError "Too many magnetic sites to sensibly perform enumeration.")
  else
  max_cell_size ⇐ resolve_max_cell_size (max_cell_size a) num_mag_sites ;;
  let cns := coordination_numbers structure1 types_mag_species in
  structure2 ⇐ lookup_or_raise (add_site_property "cn" cns structure1)
                 (ValueError "Values must be same length as sites.") ;;
  let unique_cns : gset Z := list_to_set cns ∖ {[0]} in
  ret (mkProfile formula input_analyzer analyzer structure1 structure2
                 max_cell_size cns unique_cns).

(** Lines 248-252: the value of [attempt_ferrimagnetic] after the
    heuristic. *)
Definition attempt_ferrimagnetic_resolved (a : Args) (p : Profile) : bool :=
  ferrimagnetic_heuristic (attempt_ferrimagnetic a) (size (pf_unique_cns p))
                          (length (an_types_of_magnetic_specie (pf_analyzer p))).

(** The enumeration call with a given constraint list. *)
Definition enum_call (a : Args) (p : Profile)
    (constraints : list MagOrderParameterConstraint) : EnumCall :=
  mkEnumCall (an_magnetic_species_and_magmoms (pf_analyzer p)) constraints
             (pf_max_cell_size p) (timeout a) (pf_structure p) (num_orderings a).

(** The constraints are constructed, then the transformation built from
    them is applied. *)
Definition constrained_call (a : Args) (p : Profile)
    (constraints : list MagOrderParameterConstraint)
    (ordered_structures : list Structure) : M (list Structure) :=
  built ⇐ construct constraints ;;
  enumerate_and_add (enum_call a p built) ordered_structures.

(** Line 303: the gate of the ferrimagnetic-by-motif branch. *)
Definition ferri_by_motif_gate (a : Args) (p : Profile) : bool :=
  let types_mag_species := an_types_of_magnetic_specie (pf_analyzer p) in
  let types_mag_elements : gset string := list_to_set (symbol <$> types_mag_species) in
  attempt_ferrimagnetic_resolved a p
  && bool_decide (1 < an_number_of_unique_magnetic_sites (pf_analyzer p))%nat
  && bool_decide (size types_mag_elements = 1%nat).

(** Line 334: the gate of the ferrimagnetic-by-species branch. *)
Definition ferri_by_species_gate (a : Args) (p : Profile) : bool :=
  let types_mag_species := an_types_of_magnetic_specie (pf_analyzer p) in
  attempt_ferrimagnetic_resolved a p
  && bool_decide (1 < length types_mag_species)%nat.

(** Lines 274-282: the ferromagnetic seed. *)
Definition ferromagnetic_seed (p : Profile) : M Structure :=
  let fm0 := an_get_ferromagnetic_structure (pf_analyzer p) in
  magmoms ⇐ lookup_or_raise (site_property "magmom" fm0) (KeyError "magmom") ;;
  fm1 ⇐ lookup_or_raise (add_spin_by_site magmoms fm0)
          (ValueError "Spin of all sites must be specified in the dictionary.") ;;
  ret (remove_site_property "magmom" fm1).

(** Lines 274-385: the candidate pool before deduplication. *)
Definition enumerate_orderings (a : Args) (p : Profile) : M (list Structure) :=
  let types_mag_species := an_types_of_magnetic_specie (pf_analyzer p) in
  let unique_cns := pf_unique_cns p in
  fm_structure ⇐ ferromagnetic_seed p ;;
  ordered_structures ⇐
    constrained_call a p (afm_constraints types_mag_species) [fm_structure] ;;
  ordered_structures ⇐
    (if ferri_by_motif_gate a p then
       for_each (elements unique_cns)
         (λ acc cn, constrained_call a p
                      (ferri_by_motif_constraints unique_cns cn) acc)
         ordered_structures
     else if ferri_by_species_gate a p then
       for_each types_mag_species
         (λ acc sp, constrained_call a p
                      (ferri_by_species_constraints types_mag_species sp) acc)
         ordered_structures
     else ret ordered_structures) ;;
  if attempt_afm_by_motif a then
    for_each (elements unique_cns)
      (λ acc cn, constrained_call a p (afm_by_motif_constraints cn) acc)
      ordered_structures
  else ret ordered_structures.

(** Lines 388-394: one turn of the loop that collects the indices to
    remove. *)
Definition dedup_step (ordered_structures : list Structure)
    (structures_to_remove : list nat) (item : nat * Structure) : list nat :=
  let idx := item.1 in
  let ordered_structure := item.2 in
  if bool_decide (idx ∈ structures_to_remove) then structures_to_remove
  else
    let matches_ := map (λ s, matches ordered_structure s) ordered_structures in
    structures_to_remove
      ++ omap (λ mm : nat * bool,
                 if mm.2 && negb (idx =? mm.1)%nat then Some mm.1 else None)
              (enumerate matches_).

Definition structures_to_remove (ordered_structures : list Structure) : list nat :=
  foldl (dedup_step ordered_structures) [] (enumerate ordered_structures).

(** Lines 396-399. *)
Definition remove_duplicates (ordered_structures : list Structure) : list Structure :=
  let rem := structures_to_remove ordered_structures in
  if negb (length rem =? 0)%nat then
    snd <$> filter (λ item : nat * Structure, item.1 ∉ rem)
                   (enumerate ordered_structures)
  else ordered_structures.

(** Lines 171-399: everything up to the deduplicated pool. *)
Definition candidate_pool (a : Args) : M (Profile * list Structure) :=
  p ⇐ sanitize_and_profile a ;;
  ordered_structures ⇐ enumerate_orderings a p ;;
  ret (p, remove_duplicates ordered_structures).

(** Lines 407-423.  The third component is the local [debug_match_index],
    [None] while it is unbound. *)
Definition track_provenance (input_analyzer : Analyzer)
    (ordered_structures : list Structure)
  : M (list Structure * list Z * option Z) :=
  let indexes := Z.of_nat <$> seq 0 (length ordered_structures) in
  if bool_decide (an_ordering input_analyzer ≠ NM) then
    let matches_ := map (an_matches_ordering input_analyzer) ordered_structures in
    if negb (existsb id matches_) then
      ret (ordered_structures ++ [an_structure input_analyzer],
           indexes ++ [-1], Some (-1))
    else
      i ⇐ lookup_or_raise (index_true matches_)
            (ValueError "True is not in list") ;;
      ret (ordered_structures, indexes, Some (Z.of_nat i))
  else ret (ordered_structures, indexes, None).

(** Lines 437-445: keyword arguments of the relaxation input set, as the
    value they have when the node of one candidate is created.  Line 445
    writes into the dictionary found under ["user_incar_settings"], which
    is the caller's own when [vasp_input_set_kwargs] brings one; what that
    write does to the nodes of other candidates is not followed here. *)
Definition relax_vis_kwargs (a : Args) (o : Ordering) : gmap string incar :=
  let default : gmap string incar :=
    {[ "user_incar_settings" := <["ISYM" := 0]> (<["LASPH" := 1]> ∅) ]} in
  let kw := match vasp_input_set_kwargs a with
            | Some user => if bool_decide (user = ∅) then default else user ∪ default
            | None => default
            end in
  if bool_decide (o = NM)
  then alter (λ incar_settings, <["ISPIN" := 1]> incar_settings)
             "user_incar_settings" kw
  else kw.

(** Lines 430-463: one turn of the loop over the final pool.  The state is
    the pair [(fws, analysis_parents)]. *)
Definition add_chain (a : Args) (indexes : list Z)
    (st : list Firework * list nat) (item : nat * Structure)
  : M (list Firework * list nat) :=
  let fws := st.1 in
  let analysis_parents := st.2 in
  let idx := item.1 in
  let ordered_structure := item.2 in
  let analyzer := CollinearMagneticStructureAnalyzer ordered_structure None "none" in
  index ⇐ lookup_or_raise (indexes !! idx) IndexError ;;
  let name := "ordering " +:+ pretty index +:+ " "
                +:+ Ordering_value (an_ordering analyzer) +:+ " -" in
  let relax := mkFirework (length fws) (name +:+ " optimize")
                 (OptimizeTask ordered_structure
                               (relax_vis_kwargs a (an_ordering analyzer))) [] in
  let fws := fws ++ [relax] in
  let static := mkFirework (length fws) (name +:+ " static")
                  (StaticTask ordered_structure true) [fw_id relax] in
  let fws := fws ++ [static] in
  ret (fws, analysis_parents ++ [fw_id static]).

(** Lines 427-487: the workflow for a final pool. *)
Definition build_workflow (a : Args) (p : Profile)
    (ordered_structures : list Structure) (indexes : list Z) : M Workflow :=
  st ⇐ for_each (enumerate ordered_structures) (add_chain a indexes) ([], []) ;;
  let fws := st.1 in
  let analysis_parents := st.2 in
  let uuid := uuid4 in
  let fw_analysis :=
    mkFirework (length fws) "Magnetic Orderings Analysis"
      (MagneticOrderingsToDB uuid (pf_structure p) (vasp_input_set_kwargs a)
                             (perform_bader a))
      analysis_parents in
  let fws := fws ++ [fw_analysis] in
  let wf := Workflow_of fws (pf_formula p +:+ " - magnetic orderings") in
  let wf := add_additional_fields_to_taskdocs wf
              (uuid, "magnetic_orderings", "1.3") in
  let tag := "magnetic_orderings group: >>" +:+ uuid +:+ "<<" in
  ret (add_tags wf [tag]).

(** Lines 407-489: provenance, graph and the return statement.  The last
    line reads [debug_match_index], which is bound only inside the branch of
    line 409. *)
Definition finish (a : Args) (pp : Profile * list Structure)
  : M (Workflow * Z * list Structure) :=
  let p := pp.1 in
  prov ⇐ track_provenance (pf_input_analyzer p) pp.2 ;;
  let ordered_structures := prov.1.1 in
  let indexes := prov.1.2 in
  wf ⇐ build_workflow a p ordered_structures indexes ;;
  debug_match_index ⇐ lookup_or_raise prov.2 (UnboundLocalError "debug_match_index") ;;
  ret (wf, debug_match_index, ordered_structures).

(** The function itself. *)
Definition get_wf_magnetic_orderings (a : Args)
  : M (Workflow * Z * list Structure) :=
  pp ⇐ candidate_pool a ;;
  finish a pp.

(** A run starts with an empty log. *)
Definition run {A} (m : M A) : outcome A * list EnumCall := m [].

(** ** Vocabulary of the properties *)

(** The generator calls of a run that goes through, in order: the
    antiferromagnetic one, then one ferrimagnetic family at most, then the
    antiferromagnetic-by-motif family when requested. *)
Definition ferri_by_motif_calls (a : Args) (p : Profile) : list EnumCall :=
  (λ cn, enum_call a p (ferri_by_motif_constraints (pf_unique_cns p) cn))
    <$> elements (pf_unique_cns p).

Definition ferri_by_species_calls (a : Args) (p : Profile) : list EnumCall :=
  (λ sp, enum_call a p (ferri_by_species_constraints
                          (an_types_of_magnetic_specie (pf_analyzer p)) sp))
    <$> an_types_of_magnetic_specie (pf_analyzer p).

Definition afm_by_motif_calls (a : Args) (p : Profile) : list EnumCall :=
  (λ cn, enum_call a p (afm_by_motif_constraints cn)) <$> elements (pf_unique_cns p).

Definition planned_calls (a : Args) (p : Profile) : list EnumCall :=
  enum_call a p (afm_constraints (an_types_of_magnetic_specie (pf_analyzer p)))
  :: (if ferri_by_motif_gate a p then ferri_by_motif_calls a p
      else if ferri_by_species_gate a p then ferri_by_species_calls a p
      else [])
  ++ (if attempt_afm_by_motif a then afm_by_motif_calls a p else []).

(** The removal list after the first [n] turns of the loop of line 389, and
    the entries whose turn finds them outside it. *)
Definition rem_after (pool : list Structure) (n : nat) : list nat :=
  foldl (dedup_step pool) [] (take n (enumerate pool)).

Definition active (pool : list Structure) (k : nat) : Prop :=
  k ∉ rem_after pool k.

(** The matcher restricted to a pool is symmetric, is transitive. *)
Definition matcher_symmetric_on (pool : list Structure) : bool :=
  forallb (λ s, forallb (λ t, bool_decide (matches s t = matches t s)) pool) pool.

Definition matcher_transitive_on (pool : list Structure) : bool :=
  forallb (λ s, forallb (λ t, forallb (λ u,
    implb (matches s t && matches t u) (matches s u)) pool) pool) pool.

End Workflow.

(** The nodes of a graph by role, in creation order. *)
Definition relax_nodes (wf : Workflow) : list Firework :=
  filter (λ fw, is_relax fw = true) (wf_fws wf).
Definition static_nodes (wf : Workflow) : list Firework :=
  filter (λ fw, is_static fw = true) (wf_fws wf).
Definition aggregate_nodes (wf : Workflow) : list Firework :=
  filter (λ fw, is_aggregate fw = true) (wf_fws wf).

(** The invariant of the WorkflowGraph for a pool of candidates. *)
Record graph_invariant (wf : Workflow) (pool : list Structure) : Prop := {
  (* one relax node and one static node per candidate, in pool order *)
  gi_relax : fw_structure <$> relax_nodes wf = Some <$> pool;
  gi_static : fw_structure <$> static_nodes wf = Some <$> pool;
  (* the static node of a candidate depends on its relax node only *)
  gi_chain : ∀ k rx st,
    relax_nodes wf !! k = Some rx → static_nodes wf !! k = Some st →
    fw_parents rx = [] ∧ fw_parents st = [fw_id rx];
  (* one aggregate node, fed by every static node and reached from every
     other node *)
  gi_aggregate : ∃ agg,
    aggregate_nodes wf = [agg] ∧
    fw_parents agg = fw_id <$> static_nodes wf ∧
    ∀ fw, fw ∈ wf_fws wf → fw ≠ agg → tc (wf_edge wf) (fw_id fw) (fw_id agg);
  gi_ids : NoDup (fw_id <$> wf_fws wf);
  gi_acyclic : ∀ x, ¬ tc (wf_edge wf) x x
}.

(** The relax/static pairs that the loop of line 430 appends for a list of
    candidates when the next free identity is [n], with the identities
    collected in [analysis_parents]. *)
Inductive chains : nat → list Structure → list Firework → list nat → Prop :=
  | chains_nil n : chains n [] [] []
  | chains_cons n s pool rx st fws parents :
      fw_id rx = n → is_relax rx = true → fw_structure rx = Some s →
      fw_parents rx = [] →
      fw_id st = S n → is_static st = true → fw_structure st = Some s →
      fw_parents st = [n] →
      chains (S (S n)) pool fws parents →
      chains n (s :: pool) (rx :: st :: fws) (S n :: parents).

(** A computation that leaves the log of generator calls alone. *)
Definition silent {A} (m : M A) : Prop := ∀ log, (m log).2 = log.

Definition is_ok {A} (r : outcome A) : Prop :=
  match r with Ok _ => True | Raise _ => False end.

(** ** Vocabulary of the further properties *)

Section Outcomes.
Context `{!Pymatgen}.

(** The generator answered this call. *)
Definition call_ok (c : EnumCall) : bool :=
  match apply_transformation c with inr _ => true | inl _ => false end.

(** The structures that one generator call contributes to the pool. *)
Definition added_structures (c : EnumCall) : list Structure :=
  match apply_transformation c with
  | inr o => _add_structures [] o
  | inl _ => []
  end.

(** How the calls that a computation logged relate to its outcome: every
    call was answered, or the last one raised and that exception is the
    outcome. *)
Definition log_outcome {A} (r : outcome A) (ext : list EnumCall) : Prop :=
  Forall (λ c, call_ok c = true) ext
  ∨ ∃ pre c e, ext = pre ++ [c] ∧ Forall (λ c, call_ok c = true) pre ∧
               apply_transformation c = inl e ∧ r = Raise e.

Definition tracked {A} (m : M A) : Prop :=
  ∀ log r log', m log = (r, log') → ∃ ext, log' = log ++ ext ∧ log_outcome r ext.

(** The name stem of line 434 and the two nodes of lines 450-461 for a
    candidate, given the next free identity and the entry of [indexes]. *)
Definition candidate_ordering (s : Structure) : Ordering :=
  an_ordering (CollinearMagneticStructureAnalyzer s None "none").

Definition candidate_name (index : Z) (s : Structure) : string :=
  "ordering " +:+ pretty index +:+ " " +:+ Ordering_value (candidate_ordering s)
    +:+ " -".

Definition relax_fw (a : Args) (n : nat) (index : Z) (s : Structure) : Firework :=
  mkFirework n (candidate_name index s +:+ " optimize")
             (OptimizeTask s (relax_vis_kwargs a (candidate_ordering s))) [].

Definition static_fw (n : nat) (index : Z) (s : Structure) : Firework :=
  mkFirework (S n) (candidate_name index s +:+ " static") (StaticTask s true) [n].

End Outcomes.

(** The entry of [indexes] for position [k] of a final pool of length [n]
    returned with provenance index [i]: the position itself, and -1 for the
    appended input. *)
Definition index_at (i : Z) (n k : nat) : Z :=
  if bool_decide (i = (-1)%Z ∧ S k = n) then (-1)%Z else Z.of_nat k.

(** The default INCAR settings of line 437. *)
Definition default_incar : gmap string Z := <["ISYM" := 0%Z]> (<["LASPH" := 1%Z]> ∅).

(** ** A small world to run the workflow in

    Concrete collaborators: a collinear analyzer that reads a site's moment
    from its spin, else from its [magmom] property; a generator, a matcher
    and a coordination-number query that the examples choose. *)
Module Example.

#[global] Instance Site_eq_dec : EqDecision Site.
Proof. solve_decision. Defined.
#[global] Instance Structure_eq_dec : EqDecision Structure.
Proof. solve_decision. Defined.

Definition magnetic_elements : list string := ["Ni"; "Fe"; "Mn"].

Definition is_magnetic_element (st : Site) : bool :=
  bool_decide (symbol (specie st) ∈ magnetic_elements).

(** The moment the analyzer assigns to a site: the default moment of the
    element under ["replace_all"], otherwise what the site carries. *)
Definition site_moment (mode : string) (st : Site) : Z :=
  if bool_decide (mode = "replace_all")
  then (if is_magnetic_element st then 5 else 0)
  else match spin (specie st) with
       | Some m => m
       | None => default 0 (properties st !! "magmom")
       end.

Definition classify (moments : list Z) : Ordering :=
  if forallb (Z.eqb 0) moments then NM
  else if forallb (Z.leb 0) moments then FM
  else if (foldr Z.add 0 moments =? 0) then AFM else FiM.

Definition with_magmoms (mode : string) (s : Structure) : Structure :=
  mkStructure
    (map (λ st, mkSite (mkSpecie (symbol (specie st)) (oxi_state (specie st)) None)
                       (frac_coords st)
                       (<["magmom" := site_moment mode st]> (properties st)))
         (sites s)).

Definition analyzer (n_unique : nat) (s : Structure)
    (default_magmoms : option (gmap string Z)) (mode : string) : Analyzer :=
  let moments := map (site_moment mode) (sites s) in
  let mag_sites := filter (λ st, site_moment mode st ≠ 0) (sites s) in
  mkAnalyzer (with_magmoms mode s) true (classify moments)
    (list_to_map (map (λ st, (symbol (specie st), Z.abs (site_moment mode st)))
                      mag_sites))
    (remove_dups (map specie mag_sites))
    (length mag_sites) n_unique
    (with_magmoms mode s)
    (λ t, bool_decide (map (site_moment "none") (sites t) = moments)).

(** A generator output: the magnetic sites with alternating spins. *)
Definition alternate (s : Structure) : Structure :=
  mkStructure
    (imap (λ i st,
             mkSite (mkSpecie (symbol (specie st)) (oxi_state (specie st))
                              (Some (if is_magnetic_element st
                                     then (if Nat.even i then 5 else -5) else 0)))
                    (frac_coords st) (properties st))
          (sites s)).

Definition gen_alternate (c : EnumCall) : exn + trans_output :=
  inr (Ranked [Wrapped (alternate (ec_structure c))]).

Definition gen_nothing (c : EnumCall) : exn + trans_output := inr (Ranked []).

(** Two matchers: identity of structures, and agreement of every
    coordinate within one unit. *)
Definition same (s t : Structure) : bool := bool_decide (s = t).

Definition close_coords (x y : Z * Z * Z) : bool :=
  (Z.abs (x.1.1 - y.1.1) <=? 1) && (Z.abs (x.1.2 - y.1.2) <=? 1)
  && (Z.abs (x.2 - y.2) <=? 1).

Definition within_tolerance (s t : Structure) : bool :=
  bool_decide (len s = len t)
  && forallb (λ st : Site * Site,
                bool_decide (symbol (specie st.1) = symbol (specie st.2))
                && close_coords (frac_coords st.1) (frac_coords st.2))
             (zip (sites s) (sites t)).

Definition world (n_unique : nat) (cn : Structure → nat → Z)
    (gen : EnumCall → exn + trans_output) (matcher : Structure → Structure → bool)
  : Pymatgen := {|
  reduced_formula := λ _, "NiO";
  is_ordered := λ _, true;
  get_primitive_structure := λ s _, s;
  CollinearMagneticStructureAnalyzer := analyzer n_unique;
  get_cn := cn;
  apply_transformation := gen;
  matches := matcher;
  str_specie := symbol;
  uuid4 := "5f2b7c1e"
|}.

Definition octahedral (s : Structure) (n : nat) : Z := 6.
Definition tetra_octa (s : Structure) (n : nat) : Z := if Nat.even n then 4 else 6.

Definition Ni (x : Z) (props : gmap string Z) : Site :=
  mkSite (mkSpecie "Ni" None None) (x, x, x) props.
Definition O (x : Z) : Site := mkSite (mkSpecie "O" None None) (x, x, x) ∅.

(** NiO with an antiferromagnetic input, with a ferromagnetic input and
    without moments. *)
Definition NiO_afm : Structure :=
  mkStructure [Ni 0 {[ "magmom" := 5 ]}; Ni 4 {[ "magmom" := -5 ]}; O 2; O 6].
Definition NiO_fm : Structure :=
  mkStructure [Ni 0 {[ "magmom" := 5 ]}; Ni 4 {[ "magmom" := 5 ]}; O 2; O 6].
Definition NiO_plain : Structure :=
  mkStructure [Ni 0 ∅; Ni 4 ∅; O 2; O 6].

Definition args_of (s : Structure) : Args :=
  mkArgs s "vasp_std" "db.json" None "replace_all" "VASP" None false 10 None None
         true None.

Definition with_attempt_ferrimagnetic (b : bool) (a : Args) : Args :=
  mkArgs (structure a) (vasp_cmd a) (db_file a) (default_magmoms a)
         (respect_input_magmoms a) (calculate_magmoms a) (Some b)
         (attempt_afm_by_motif a) (num_orderings a) (max_cell_size a)
         (vasp_input_set_kwargs a) (perform_bader a) (timeout a).

Definition with_max_cell_size (m : Z) (a : Args) : Args :=
  mkArgs (structure a) (vasp_cmd a) (db_file a) (default_magmoms a)
         (respect_input_magmoms a) (calculate_magmoms a) (attempt_ferrimagnetic a)
         (attempt_afm_by_motif a) (num_orderings a) (Some m)
         (vasp_input_set_kwargs a) (perform_bader a) (timeout a).

(** Rock salt: one magnetic site up to symmetry, octahedral. *)
Definition rock_salt : Pymatgen := world 1 octahedral gen_alternate same.
Definition rock_salt_silent : Pymatgen := world 1 octahedral gen_nothing same.
(** Two symmetry-distinct magnetic sites with the same coordination. *)
Definition two_octahedral_sites : Pymatgen := world 2 octahedral gen_alternate same.
(** Two symmetry-distinct magnetic sites, tetrahedral and octahedral. *)
Definition spinel_like : Pymatgen := world 2 tetra_octa gen_alternate same.
(** More symmetry-distinct magnetic sites than the limit. *)
Definition nine_sites : Pymatgen := world 9 octahedral gen_alternate same.

(** One-site candidates displaced along the diagonal. *)
Definition shifted (x : Z) : Structure := mkStructure [Ni x ∅].
Definition tolerant : Pymatgen := world 1 octahedral gen_nothing within_tolerance.

(** Reading off what a run returned. *)
Definition returned {A} (d : A) (r : outcome A * list EnumCall) : A :=
  match r.1 with Ok x => x | Raise _ => d end.

Definition no_structure : Structure := mkStructure [].
Definition no_analyzer : Analyzer :=
  mkAnalyzer no_structure false Unknown ∅ [] 0 0 no_structure (λ _, false).
Definition no_profile : Profile :=
  mkProfile "" no_analyzer no_analyzer no_structure no_structure 0 [] ∅.
Definition no_workflow : Workflow := mkWorkflow [] "" None [].

Definition profile_of (W : Pymatgen) (a : Args) : Profile :=
  returned no_profile (run (sanitize_and_profile (H:=W) a)).
Definition pool_of (W : Pymatgen) (a : Args) : list Structure :=
  (returned (no_profile, []) (run (candidate_pool (H:=W) a))).2.
Definition log_of (W : Pymatgen) (a : Args) : list EnumCall :=
  (run (get_wf_magnetic_orderings (H:=W) a)).2.
Definition workflow_of (W : Pymatgen) (a : Args) : Workflow :=
  (returned (no_workflow, 0, []) (run (get_wf_magnetic_orderings (H:=W) a))).1.1.
Definition index_of (W : Pymatgen) (a : Args) : Z :=
  (returned (no_workflow, 0, []) (run (get_wf_magnetic_orderings (H:=W) a))).1.2.
Definition final_pool_of (W : Pymatgen) (a : Args) : list Structure :=
  (returned (no_workflow, 0, []) (run (get_wf_magnetic_orderings (H:=W) a))).2.

(** A generator that times out, an input with partial occupancies, an input
    with vector moments, and a cell without magnetic sites. *)
Definition gen_timeout (c : EnumCall) : exn + trans_output :=
  inl (GeneratorError "timeout").
Definition rock_salt_timeout : Pymatgen := world 1 octahedral gen_timeout same.

Definition disordered : Pymatgen := {|
  reduced_formula := reduced_formula (Pymatgen:=rock_salt);
  is_ordered := λ _, false;
  get_primitive_structure := get_primitive_structure (Pymatgen:=rock_salt);
  CollinearMagneticStructureAnalyzer :=
    CollinearMagneticStructureAnalyzer (Pymatgen:=rock_salt);
  get_cn := octahedral;
  apply_transformation := gen_alternate;
  matches := same;
  str_specie := symbol;
  uuid4 := "5f2b7c1e"
|}.

Definition vector_moments (s : Structure) (d : option (gmap string Z))
    (mode : string) : Analyzer :=
  let an := analyzer 1 s d mode in
  mkAnalyzer (an_structure an) false (an_ordering an)
    (an_magnetic_species_and_magmoms an) (an_types_of_magnetic_specie an)
    (an_number_of_magnetic_sites an) (an_number_of_unique_magnetic_sites an)
    (an_get_ferromagnetic_structure an) (an_matches_ordering an).

Definition noncollinear : Pymatgen := {|
  reduced_formula := reduced_formula (Pymatgen:=rock_salt);
  is_ordered := λ _, true;
  get_primitive_structure := get_primitive_structure (Pymatgen:=rock_salt);
  CollinearMagneticStructureAnalyzer := vector_moments;
  get_cn := octahedral;
  apply_transformation := gen_alternate;
  matches := same;
  str_specie := symbol;
  uuid4 := "5f2b7c1e"
|}.

Definition oxide_only : Structure := mkStructure [O 0; O 2].

(** Two magnetic species on sites of different coordination, and NiO with
    the motif-based antiferromagnetic attempts switched on. *)
Definition Fe (x : Z) (props : gmap string Z) : Site :=
  mkSite (mkSpecie "Fe" None None) (x, x, x) props.
Definition NiFeO : Structure :=
  mkStructure [Ni 0 {[ "magmom" := 5 ]}; Fe 4 {[ "magmom" := -5 ]}; O 2; O 6].
Definition two_species : Pymatgen := world 1 octahedral gen_alternate same.

Definition with_afm_by_motif (a : Args) : Args :=
  mkArgs (structure a) (vasp_cmd a) (db_file a) (default_magmoms a)
         (respect_input_magmoms a) (calculate_magmoms a) (attempt_ferrimagnetic a)
         true (num_orderings a) (max_cell_size a)
         (vasp_input_set_kwargs a) (perform_bader a) (timeout a).

Definition with_vasp_input_set_kwargs (kw : gmap string incar) (a : Args) : Args :=
  mkArgs (structure a) (vasp_cmd a) (db_file a) (default_magmoms a)
         (respect_input_magmoms a) (calculate_magmoms a) (attempt_ferrimagnetic a)
         (attempt_afm_by_motif a) (num_orderings a) (max_cell_size a)
         (Some kw) (perform_bader a) (timeout a).

(** NiO with ferrimagnetic enumeration requested, and iron in two
    oxidation states on the tetrahedral and the octahedral site. *)
Definition ferrimagnetic_requested : Args :=
  with_attempt_ferrimagnetic true (args_of NiO_afm).

Definition Fe_ox (ox x : Z) (props : gmap string Z) : Site :=
  mkSite (mkSpecie "Fe" (Some ox) None) (x, x, x) props.
Definition mixed_valence : Structure :=
  mkStructure [Fe_ox 2 0 {[ "magmom" := 4 ]}; Fe_ox 3 4 {[ "magmom" := -5 ]};
               O 2; O 6].

Definition raw_pool_of (W : Pymatgen) (a : Args) : list Structure :=
  returned [] (run (enumerate_orderings (H:=W) a (profile_of W a))).

(** Reading calls, constraints and nodes off a run. *)
Definition no_call : EnumCall := mkEnumCall ∅ [] 0 None no_structure 0.
Definition no_constraint : MagOrderParameterConstraint :=
  mkConstraint op_one None None None.
Definition no_firework : Firework :=
  mkFirework 0 "" (StaticTask no_structure false) [].

Definition call_of (W : Pymatgen) (a : Args) (n : nat) : EnumCall :=
  default no_call (log_of W a !! n).
Definition constraint_of (c : EnumCall) (n : nat) : MagOrderParameterConstraint :=
  default no_constraint (ec_order_parameter c !! n).
Definition node_of (W : Pymatgen) (a : Args) (n : nat) : Firework :=
  default no_firework (wf_fws (workflow_of W a) !! n).
Definition structure_of (fw : Firework) : Structure :=
  default no_structure (fw_structure fw).
Definition kwargs_of (fw : Firework) : gmap string incar :=
  match fw_task fw with OptimizeTask _ kw => kw | _ => ∅ end.

End Example.

(** * Properties *)

Open Scope nat_scope.

(** ** The monad *)

Lemma bind_ok {A B} (m : M A) (k : A → M B) log a log' :
  m log = (Ok a, log') → bind m k log = k a log'.
Proof. unfold bind. by intros ->. Qed.

Lemma bind_raise {A B} (m : M A) (k : A → M B) log e log' :
  m log = (Raise e, log') → bind m k log = (Raise e, log').
Proof. unfold bind. by intros ->. Qed.

Lemma bind_ok_inv {A B} (m : M A) (k : A → M B) log b log2 :
  bind m k log = (Ok b, log2) →
  ∃ a log1, m log = (Ok a, log1) ∧ k a log1 = (Ok b, log2).
Proof.
  unfold bind. destruct (m log) as [[a|e] log1]; [eauto | done].
Qed.

Lemma silent_ret {A} (a : A) : silent (ret a).
Proof. done. Qed.

Lemma silent_raise {A} e : silent (@raise A e).
Proof. done. Qed.

Lemma silent_lookup_or_raise {A} (o : option A) e : silent (lookup_or_raise o e).
Proof. by destruct o. Qed.

Lemma silent_bind {A B} (m : M A) (k : A → M B) :
  silent m → (∀ a, silent (k a)) → silent (bind m k).
Proof.
  intros Hm Hk log. unfold bind. specialize (Hm log).
  destruct (m log) as [[a|e] log1]; simpl in *; subst; [apply Hk | done].
Qed.

Lemma silent_for_each {A S} (xs : list A) (body : S → A → M S) acc :
  (∀ acc x, silent (body acc x)) → silent (for_each xs body acc).
Proof.
  intros Hbody. revert acc.
  induction xs as [|x xs IH]; intros acc; simpl; [apply silent_ret|].
  apply silent_bind; [apply Hbody | intros; apply IH].
Qed.

Lemma silent_eq {A} (m : M A) log r log' :
  silent m → m log = (r, log') → log' = log.
Proof. intros Hm Heq. specialize (Hm log). rewrite Heq in Hm. done. Qed.

Create HintDb silent.
#[local] Hint Resolve silent_ret silent_raise silent_lookup_or_raise : silent.

Section Log.
Context `{!Pymatgen}.

Lemma enumerate_and_add_log c acc log r log' :
  enumerate_and_add c acc log = (r, log') → log' = log ++ [c].
Proof.
  unfold enumerate_and_add, bind, call_generator.
  destruct (apply_transformation c); intros [= _ <-]; done.
Qed.

Lemma silent_construct cs : silent (construct cs).
Proof. unfold construct. by destruct (omap constraint_error cs). Qed.

(** A constraint list either passes the constructor's checks, and the call
    is the generator's, or is refused before the generator is reached. *)
Lemma constrained_call_cases a p cs acc log :
  (omap constraint_error cs = [] ∧
   constrained_call a p cs acc log = enumerate_and_add (enum_call a p cs) acc log)
  ∨ ∃ e, head (omap constraint_error cs) = Some e ∧
         constrained_call a p cs acc log = (Raise e, log).
Proof.
  unfold constrained_call, construct.
  destruct (omap constraint_error cs) as [|e l]; [by left | right; by exists e].
Qed.

Lemma constrained_call_log a p cs acc log r log' :
  constrained_call a p cs acc log = (r, log') →
  log' = log ++ [enum_call a p cs] ∨ (log' = log ∧ ¬ is_ok r).
Proof.
  destruct (constrained_call_cases a p cs acc log) as [[_ ->] | (e & _ & ->)].
  - intros ->%enumerate_and_add_log. by left.
  - intros [= <- <-]. right. split; [done | by intros []].
Qed.

Lemma afm_constraints_pass types :
  omap constraint_error (afm_constraints types) = [].
Proof. reflexivity. Qed.

Lemma constrained_call_afm a p types acc log :
  constrained_call a p (afm_constraints types) acc log
  = enumerate_and_add (enum_call a p (afm_constraints types)) acc log.
Proof.
  destruct (constrained_call_cases a p (afm_constraints types) acc log)
    as [[_ ->] | (e & He & _)]; [done|].
  by rewrite afm_constraints_pass in He.
Qed.

(** A loop of generator calls logs a prefix of its calls, all of them when
    it goes through. *)
Lemma for_each_calls_log {A} a p (mk : A → list MagOrderParameterConstraint)
    (xs : list A) acc log r log' :
  for_each xs (λ acc x, constrained_call a p (mk x) acc) acc log = (r, log') →
  ∃ ext, log' = log ++ ext ∧ ext `prefix_of` ((λ x, enum_call a p (mk x)) <$> xs) ∧
         (is_ok r → ext = (λ x, enum_call a p (mk x)) <$> xs).
Proof.
  revert acc log. induction xs as [|x xs IH]; intros acc log; simpl.
  - intros [= <- <-]. exists []. by rewrite app_nil_r.
  - unfold bind at 1.
    destruct (constrained_call a p (mk x) acc log) as [[acc'|e] log1] eqn:Hx;
      apply constrained_call_log in Hx as [-> | [-> Hno]].
    + intros (ext & -> & Hpre & Hok)%IH.
      exists (enum_call a p (mk x) :: ext). rewrite <-app_assoc.
      split; [done|]. split.
      * by apply prefix_cons.
      * intros Hr. by rewrite Hok.
    + by destruct Hno.
    + intros [= <- <-]. exists [enum_call a p (mk x)]. split; [done|].
      split; [|done]. apply prefix_cons, prefix_nil.
    + intros [= <- <-]. exists []. rewrite app_nil_r. split; [done|].
      split; [apply prefix_nil | done].
Qed.

Lemma silent_ferromagnetic_seed p : silent (ferromagnetic_seed p).
Proof.
  unfold ferromagnetic_seed.
  repeat (apply silent_bind; [auto with silent | intros]). auto with silent.
Qed.

Lemma enumerate_orderings_log a p log r log' :
  enumerate_orderings a p log = (r, log') →
  ∃ ext, log' = log ++ ext ∧ ext `prefix_of` planned_calls a p ∧
         (is_ok r → ext = planned_calls a p).
Proof.
  unfold enumerate_orderings, planned_calls.
  unfold bind at 1.
  destruct (ferromagnetic_seed p log) as [[fm|e] log0] eqn:Hfm;
    apply (silent_eq _ _ _ _ (silent_ferromagnetic_seed p)) in Hfm as ->.
  2:{ intros [= <- <-]. exists []. rewrite app_nil_r.
      split; [done|]. split; [apply prefix_nil | done]. }
  unfold bind at 1. rewrite constrained_call_afm.
  destruct (enumerate_and_add _ [fm] log) as [[pool1|e] log1] eqn:Hafm;
    apply enumerate_and_add_log in Hafm as ->.
  2:{ intros [= <- <-]. eexists [_]. split; [done|]. split; [|done].
      apply prefix_cons, prefix_nil. }
  unfold bind at 1.
  set (ferri := if ferri_by_motif_gate a p then ferri_by_motif_calls a p
                else if ferri_by_species_gate a p then ferri_by_species_calls a p
                else []).
  match goal with |- context [ (if ferri_by_motif_gate a p then ?x else ?y) ?l ] =>
    destruct ((if ferri_by_motif_gate a p then x else y) l)
      as [r2 log2] eqn:Hferri end.
  assert (∃ ext, log2 = (log ++ [enum_call a p
            (afm_constraints (an_types_of_magnetic_specie (pf_analyzer p)))]) ++ ext
          ∧ ext `prefix_of` ferri ∧ (is_ok r2 → ext = ferri))
    as (ext2 & -> & Hpre2 & Hok2).
  { subst ferri. destruct (ferri_by_motif_gate a p).
    - eapply (for_each_calls_log a p
                (λ cn, ferri_by_motif_constraints (pf_unique_cns p) cn)).
      exact Hferri.
    - destruct (ferri_by_species_gate a p).
      + eapply (for_each_calls_log a p
                (λ sp, ferri_by_species_constraints
                         (an_types_of_magnetic_specie (pf_analyzer p)) sp)).
        exact Hferri.
      + injection Hferri as <- <-. exists []. by rewrite app_nil_r. }
  destruct r2 as [pool2|e].
  2:{ intros [= <- <-]. exists (enum_call a p
            (afm_constraints (an_types_of_magnetic_specie (pf_analyzer p))) :: ext2).
      rewrite <-app_assoc. split; [done|]. split; [|done].
      apply prefix_cons. by apply prefix_app_r. }
  rewrite (Hok2 I) in *.
  set (motif := if attempt_afm_by_motif a then afm_by_motif_calls a p else []).
  intros Hmotif.
  assert (∃ ext, log' = ((log ++ [enum_call a p
            (afm_constraints (an_types_of_magnetic_specie (pf_analyzer p)))]) ++ ferri)
            ++ ext
          ∧ ext `prefix_of` motif ∧ (is_ok r → ext = motif))
    as (ext3 & -> & Hpre3 & Hok3).
  { subst motif. destruct (attempt_afm_by_motif a).
    - eapply (for_each_calls_log a p (λ cn, afm_by_motif_constraints cn)).
      exact Hmotif.
    - injection Hmotif as <- <-. exists []. by rewrite app_nil_r. }
  exists (enum_call a p
            (afm_constraints (an_types_of_magnetic_specie (pf_analyzer p)))
          :: ferri ++ ext3).
  split; [by rewrite <-!app_assoc|]. split.
  - apply prefix_cons. by apply prefix_app.
  - intros Hr. by rewrite Hok3.
Qed.

End Log.

(** ** Deduplication *)

Section Dedup.
Context `{!Pymatgen}.
Implicit Types (pool : list Structure) (s t : Structure) (i j k n : nat).

Lemma enumerate_lookup {A} (l : list A) i x :
  enumerate l !! i = Some x ↔ x.1 = i ∧ l !! i = Some x.2.
Proof.
  unfold enumerate. rewrite list_lookup_imap_Some. destruct x as [a b]; simpl.
  split.
  - intros (y & Hy & [= -> ->]). done.
  - intros [-> Hl]. eauto.
Qed.

Lemma enumerate_length {A} (l : list A) : length (enumerate l) = length l.
Proof. apply length_imap. Qed.

Lemma enumerate_fst {A} (l : list A) : (enumerate l).*1 = seq 0 (length l).
Proof.
  unfold enumerate. rewrite fmap_imap.
  transitivity (id <$> seq 0 (length l)); [|apply list_fmap_id].
  apply (imap_seq_0 l id).
Qed.

Lemma enumerate_snd {A} (l : list A) : (enumerate l).*2 = l.
Proof.
  unfold enumerate. rewrite fmap_imap.
  transitivity (id <$> l); [|apply list_fmap_id].
  apply (imap_const id).
Qed.

Lemma structures_to_remove_rem_after pool :
  structures_to_remove pool = rem_after pool (length pool).
Proof.
  unfold structures_to_remove, rem_after.
  rewrite take_ge; [done|]. by rewrite enumerate_length.
Qed.

Lemma rem_after_0 pool : rem_after pool 0 = [].
Proof. done. Qed.

Lemma rem_after_S pool n s :
  pool !! n = Some s →
  rem_after pool (S n) = dedup_step pool (rem_after pool n) (n, s).
Proof.
  intros Hn. unfold rem_after.
  rewrite (take_S_r _ _ (n, s)); [|by apply enumerate_lookup].
  by rewrite foldl_snoc.
Qed.

Lemma rem_after_ge pool n :
  length pool ≤ n → rem_after pool n = structures_to_remove pool.
Proof.
  intros Hn. unfold rem_after, structures_to_remove.
  rewrite take_ge; [done|]. by rewrite enumerate_length.
Qed.

(** The indices that one active turn adds. *)
Lemma elem_of_new_matches pool idx s j :
  j ∈ omap (λ mm : nat * bool,
              if mm.2 && negb (idx =? mm.1)%nat then Some mm.1 else None)
           (enumerate (map (λ t, matches s t) pool))
  ↔ ∃ t, pool !! j = Some t ∧ matches s t = true ∧ idx ≠ j.
Proof.
  rewrite list_elem_of_omap. split.
  - intros ([i b] & Hin & Hf). simpl in Hf.
    apply list_elem_of_lookup in Hin as [i' Hin].
    apply enumerate_lookup in Hin as [Hi Hl]. simpl in *. subst i'.
    rewrite list_lookup_fmap in Hl.
    destruct (pool !! i) as [t|] eqn:Ht; [|done]. simpl in Hl.
    injection Hl as Hb.
    destruct b; [|done]. simpl in Hf.
    destruct (Nat.eqb_spec idx i); [done|]. simpl in Hf. injection Hf as ->.
    eauto.
  - intros (t & Ht & Hm & Hne).
    exists (j, true). split.
    + apply list_elem_of_lookup. exists j. apply enumerate_lookup. simpl.
      split; [done|]. rewrite list_lookup_fmap, Ht. simpl. by rewrite Hm.
    + simpl. destruct (Nat.eqb_spec idx j); [done|]. done.
Qed.

(** Where the entries of the removal list come from. *)
Lemma elem_of_rem_after pool n j :
  j ∈ rem_after pool n ↔
  ∃ k s t, k < n ∧ pool !! k = Some s ∧ active pool k ∧
           pool !! j = Some t ∧ matches s t = true ∧ k ≠ j.
Proof.
  induction n as [|n IH].
  - rewrite rem_after_0. split; [by intros ?%elem_of_nil|].
    intros (k & ? & ? & ? & _). lia.
  - destruct (pool !! n) as [s|] eqn:Hn.
    + rewrite (rem_after_S _ _ _ Hn). unfold dedup_step. simpl.
      case_bool_decide as Hact.
      * rewrite IH. split.
        -- intros (k & s' & t & ? & ?). exists k, s', t. split; [lia|done].
        -- intros (k & s' & t & Hk & Hks & Hak & Hrest).
           destruct (decide (k = n)) as [->|].
           ++ by destruct Hak.
           ++ exists k, s', t. split; [lia|done].
      * rewrite elem_of_app, IH, elem_of_new_matches. split.
        -- intros [(k & s' & t & ? & ?)|(t & Ht & Hm & Hne)].
           ++ exists k, s', t. split; [lia|done].
           ++ exists n, s, t. split; [lia|]. done.
        -- intros (k & s' & t & Hk & Hks & Hak & Ht & Hm & Hne).
           destruct (decide (k = n)) as [->|].
           ++ right. exists t. rewrite Hn in Hks. injection Hks as ->. done.
           ++ left. exists k, s', t. split; [lia|done].
    + apply lookup_ge_None in Hn.
      rewrite (rem_after_ge _ (S n)), (rem_after_ge _ n) in * by lia.
      rewrite IH. split.
      * intros (k & s' & t & ? & ?). exists k, s', t. split; [lia|done].
      * intros (k & s' & t & Hk & Hks & Hrest). exists k, s', t.
        apply lookup_lt_Some in Hks as Hlt. split; [lia|done].
Qed.

Lemma rem_after_mono pool n m j :
  n ≤ m → j ∈ rem_after pool n → j ∈ rem_after pool m.
Proof.
  rewrite !elem_of_rem_after. intros Hnm (k & s & t & ? & ?).
  exists k, s, t. split; [lia|done].
Qed.

Lemma kept_active pool k :
  k ∉ structures_to_remove pool → active pool k.
Proof.
  intros Hk Hin. apply Hk.
  destruct (decide (k ≤ length pool)).
  - rewrite structures_to_remove_rem_after. by eapply rem_after_mono.
  - rewrite <-(rem_after_ge pool k) by lia. done.
Qed.

(** Whatever the matcher, a surviving entry matches no other surviving
    entry. *)
Lemma kept_removes_matched pool k j s t :
  pool !! k = Some s → pool !! j = Some t →
  k ∉ structures_to_remove pool → k ≠ j → matches s t = true →
  j ∈ structures_to_remove pool.
Proof.
  intros Hk Hj Hkept Hne Hm.
  rewrite structures_to_remove_rem_after. apply elem_of_rem_after.
  exists k, s, t. apply lookup_lt_Some in Hk as Hlt.
  repeat split; try done. by apply kept_active.
Qed.

Lemma filter_all {A} (P : A → Prop) `{!∀ x, Decision (P x)} (l : list A) :
  (∀ x, P x) → filter P l = l.
Proof.
  intros HP. induction l as [|x l IH]; [done|].
  rewrite filter_cons_True by done. by rewrite IH.
Qed.

(** The result of lines 396-399 is the filter in both branches. *)
Lemma remove_duplicates_filter pool :
  remove_duplicates pool =
  (filter (λ item : nat * Structure, item.1 ∉ structures_to_remove pool)
          (enumerate pool)).*2.
Proof.
  unfold remove_duplicates.
  destruct (structures_to_remove pool) as [|r rem] eqn:Hrem; simpl; [|done].
  rewrite filter_all; [by rewrite enumerate_snd|].
  intros x. apply not_elem_of_nil.
Qed.

Lemma remove_duplicates_lookup pool i s :
  remove_duplicates pool !! i = Some s →
  ∃ k, pool !! k = Some s ∧ (k ∉ structures_to_remove pool) ∧
       ((filter (λ item : nat * Structure, item.1 ∉ structures_to_remove pool)
                (enumerate pool)).*1) !! i = Some k.
Proof.
  rewrite remove_duplicates_filter, list_lookup_fmap.
  destruct (filter _ _ !! i) as [[k s']|] eqn:Hf; [|done]. simpl.
  intros [= ->]. exists k.
  apply list_elem_of_lookup_2 in Hf as Hin.
  apply list_elem_of_filter in Hin as [Hkept Hin]. simpl in Hkept.
  apply list_elem_of_lookup in Hin as [i' Hin].
  apply enumerate_lookup in Hin as [Hi Hl]. simpl in *. subst i'.
  split; [done|]. split; [done|].
  by rewrite list_lookup_fmap, Hf.
Qed.

Lemma kept_indices_NoDup pool :
  NoDup (filter (λ item : nat * Structure, item.1 ∉ structures_to_remove pool)
                (enumerate pool)).*1.
Proof.
  eapply sublist_NoDup; [|apply fmap_sublist, sublist_filter].
  rewrite enumerate_fst. apply NoDup_seq.
Qed.

(** Invariant (ii) of the data model, for every matcher. *)
Lemma remove_duplicates_no_match pool i j s t :
  remove_duplicates pool !! i = Some s →
  remove_duplicates pool !! j = Some t →
  i ≠ j → matches s t = false.
Proof.
  intros (k & Hk & Hkept & Hik)%remove_duplicates_lookup
         (k' & Hk' & Hkept' & Hjk)%remove_duplicates_lookup Hne.
  destruct (matches s t) eqn:Hm; [|done].
  destruct (decide (k = k')) as [Heq|Hkk].
  - subst k'. destruct Hne. exact (NoDup_lookup _ i j k (kept_indices_NoDup pool) Hik Hjk).
  - destruct Hkept'. exact (kept_removes_matched pool k k' s t Hk Hk' Hkept Hkk Hm).
Qed.

(** A pool without matching pairs has nothing to remove. *)
Lemma structures_to_remove_nil pool :
  (∀ i j s t, pool !! i = Some s → pool !! j = Some t → i ≠ j →
              matches s t = false) →
  structures_to_remove pool = [].
Proof.
  intros Hno. apply elem_of_nil_inv. intros j.
  rewrite structures_to_remove_rem_after, elem_of_rem_after.
  intros (k & s & t & _ & Hk & _ & Hj & Hm & Hne).
  rewrite (Hno k j s t) in Hm; done.
Qed.

Lemma remove_duplicates_idem pool :
  remove_duplicates (remove_duplicates pool) = remove_duplicates pool.
Proof.
  unfold remove_duplicates at 1.
  rewrite structures_to_remove_nil; [done|].
  intros i j s t. apply remove_duplicates_no_match.
Qed.


Lemma forallb_lookup {A} (f : A → bool) (l : list A) i x :
  forallb f l = true → l !! i = Some x → f x = true.
Proof.
  intros Hall Hi. eapply forallb_forall; [exact Hall|].
  apply list_elem_of_In. by eapply list_elem_of_lookup_2.
Qed.

Lemma matcher_symmetric_lookup pool i j s t :
  matcher_symmetric_on pool = true → pool !! i = Some s → pool !! j = Some t →
  matches s t = matches t s.
Proof.
  intros Hsym Hi Hj. unfold matcher_symmetric_on in Hsym.
  pose proof (forallb_lookup _ _ _ _ Hsym Hi) as Hs. simpl in Hs.
  pose proof (forallb_lookup _ _ _ _ Hs Hj) as Ht. simpl in Ht.
  by apply bool_decide_eq_true in Ht.
Qed.

Lemma matcher_transitive_lookup pool i j k s t u :
  matcher_transitive_on pool = true →
  pool !! i = Some s → pool !! j = Some t → pool !! k = Some u →
  matches s t = true → matches t u = true → matches s u = true.
Proof.
  intros Htr Hi Hj Hk Hst Htu. unfold matcher_transitive_on in Htr.
  pose proof (forallb_lookup _ _ _ _ Htr Hi) as Hs. simpl in Hs.
  pose proof (forallb_lookup _ _ _ _ Hs Hj) as Ht. simpl in Ht.
  pose proof (forallb_lookup _ _ _ _ Ht Hk) as Hu. simpl in Hu.
  rewrite Hst, Htu in Hu. done.
Qed.

(** With a symmetric matcher the removed entries are exactly the inactive
    ones. *)
Lemma removed_iff_inactive pool j t :
  matcher_symmetric_on pool = true → pool !! j = Some t →
  j ∈ structures_to_remove pool ↔ ¬ active pool j.
Proof.
  intros Hsym Hj. split.
  - rewrite structures_to_remove_rem_after, elem_of_rem_after.
    intros (k & s & t' & _ & Hk & Hact & Hj' & Hm & Hne) Hactj.
    rewrite Hj in Hj'. injection Hj' as <-.
    destruct (decide (k < j)) as [Hlt|Hge].
    + apply Hactj. apply elem_of_rem_after. exists k, s, t. done.
    + apply Hact. apply elem_of_rem_after. exists j, t, s.
      rewrite <-(matcher_symmetric_lookup pool k j s t) by done.
      repeat split; try done; lia.
  - intros Hinact. destruct (decide (j ∈ structures_to_remove pool)); [done|].
    destruct Hinact. by apply kept_active.
Qed.

(** With a transitive matcher an entry is inactive exactly when an earlier
    entry matches it. *)
Lemma inactive_iff_earlier_match pool j t :
  matcher_transitive_on pool = true → pool !! j = Some t →
  ¬ active pool j ↔ ∃ i s, i < j ∧ pool !! i = Some s ∧ matches s t = true.
Proof.
  intros Htr Hj. split.
  - intros Hinact. destruct (decide (j ∈ rem_after pool j)) as [Hin|Hnin]; [|done].
    apply elem_of_rem_after in Hin as (k & s & t' & Hlt & Hk & _ & Hj' & Hm & _).
    rewrite Hj in Hj'. injection Hj' as <-. eauto.
  - intros (i & s & Hlt & Hi & Hm) Hact. apply Hact.
    destruct (decide (i ∈ rem_after pool i)) as [Hin|Hnin].
    + apply elem_of_rem_after in Hin as (k & u & s' & Hki & Hk & Hactk & Hi' & Hm' & _).
      rewrite Hi in Hi'. injection Hi' as <-.
      apply elem_of_rem_after. exists k, u, t.
      repeat split; try done; try lia.
      by eapply (matcher_transitive_lookup pool k i j).
    + apply elem_of_rem_after. exists i, s, t. repeat split; try done; lia.
Qed.

Lemma remove_duplicates_sublist pool : remove_duplicates pool `sublist_of` pool.
Proof.
  rewrite remove_duplicates_filter.
  rewrite <-(enumerate_snd pool) at 2. apply fmap_sublist, sublist_filter.
Qed.

End Dedup.

(** ** The stages before enumeration *)

Section Pipeline.
Context `{!Pymatgen}.

Lemma silent_resolve_max_cell_size mcs n : silent (resolve_max_cell_size mcs n).
Proof.
  unfold resolve_max_cell_size.
  destruct mcs as [m|]; repeat case_bool_decide; auto with silent.
Qed.

Lemma resolve_max_cell_size_supplied (m : Z) n log :
  m ≠ 0%Z → resolve_max_cell_size (Some m) n log = (Ok m, log).
Proof. intros Hm. unfold resolve_max_cell_size. by rewrite bool_decide_true. Qed.

Lemma resolve_max_cell_size_default mcs n log v log' :
  mcs = None ∨ mcs = Some 0%Z →
  resolve_max_cell_size mcs n log = (Ok v, log') →
  v = Z.max 1 (Z.of_nat (4 / n)) ∧ n ≠ 0.
Proof.
  unfold resolve_max_cell_size. intros [-> | ->]; simpl;
    case_bool_decide; intros [= <- <-]; done.
Qed.

Lemma silent_sanitize_and_profile a : silent (sanitize_and_profile a).
Proof.
  unfold sanitize_and_profile.
  destruct (negb (is_ordered _)); [auto with silent|].
  destruct (negb (an_is_collinear _)); [auto with silent|].
  case_bool_decide; [auto with silent|].
  apply silent_bind; [apply silent_resolve_max_cell_size | intros].
  apply silent_bind; auto with silent.
Qed.

(** What a profile that was returned says about the input. *)
Lemma sanitize_and_profile_ok a log p log' :
  sanitize_and_profile a log = (Ok p, log') →
  log' = log ∧
  is_ordered (structure a) = true ∧
  an_is_collinear (input_analyzer_of a) = true ∧
  an_number_of_unique_magnetic_sites (analyzer_of a) ≤ 8 ∧
  resolve_max_cell_size (max_cell_size a)
    (an_number_of_magnetic_sites (analyzer_of a)) log = (Ok (pf_max_cell_size p), log) ∧
  pf_formula p = reduced_formula (structure a) ∧
  pf_input_analyzer p = input_analyzer_of a ∧
  pf_analyzer p = analyzer_of a ∧
  pf_sanitized p = sanitized_structure a ∧
  pf_cns p = coordination_numbers (sanitized_structure a)
               (an_types_of_magnetic_specie (analyzer_of a)) ∧
  add_site_property "cn" (pf_cns p) (sanitized_structure a) = Some (pf_structure p) ∧
  pf_unique_cns p = list_to_set (pf_cns p) ∖ {[0%Z]}.
Proof.
  intros Hrun.
  assert (log' = log) as ->
    by exact (silent_eq _ _ _ _ (silent_sanitize_and_profile a) Hrun).
  revert Hrun. unfold sanitize_and_profile.
  destruct (is_ordered (structure a)); simpl; [|done].
  destruct (an_is_collinear (input_analyzer_of a)); simpl; [|done].
  case_bool_decide as Hlimit; [done|].
  intros (mcs & log1 & Hmcs & Hrest)%bind_ok_inv.
  assert (log1 = log) as ->
    by exact (silent_eq _ _ _ _ (silent_resolve_max_cell_size _ _) Hmcs).
  apply bind_ok_inv in Hrest as (s2 & log2 & Hadd & Hret).
  destruct (add_site_property _ _ _) as [s2'|] eqn:Hprop; [|done].
  injection Hadd as -> ->. injection Hret as <-. simpl.
  repeat split; try done. lia.
Qed.

Lemma coordination_numbers_length s types :
  length (coordination_numbers s types) = len s.
Proof.
  unfold coordination_numbers, len.
  rewrite length_zip_with, !length_map, length_seq. unfold len. lia.
Qed.

(** An ordered, collinear input with at most 8 distinct magnetic sites gets
    a profile as soon as the cell bound can be computed; the length check of
    [add_site_property] never fails. *)
Lemma sanitize_and_profile_returns a log :
  is_ordered (structure a) = true →
  an_is_collinear (input_analyzer_of a) = true →
  an_number_of_unique_magnetic_sites (analyzer_of a) ≤ 8 →
  (∃ m, max_cell_size a = Some m ∧ m ≠ 0%Z)
  ∨ an_number_of_magnetic_sites (analyzer_of a) ≠ 0 →
  ∃ p, sanitize_and_profile a log = (Ok p, log).
Proof.
  intros Hord Hcol Hlimit Hbound. unfold sanitize_and_profile.
  rewrite Hord, Hcol. simpl. rewrite bool_decide_false by lia.
  assert (∃ v, resolve_max_cell_size (max_cell_size a)
                 (an_number_of_magnetic_sites (analyzer_of a)) log = (Ok v, log))
    as [v Hv].
  { unfold resolve_max_cell_size.
    destruct Hbound as [(m & -> & Hm) | Hsites].
    - rewrite bool_decide_true by done. eauto.
    - destruct (max_cell_size a) as [m|]; repeat case_bool_decide; eauto; done. }
  unfold bind at 1. rewrite Hv.
  unfold add_site_property.
  rewrite bool_decide_true by apply coordination_numbers_length.
  eexists. reflexivity.
Qed.

Lemma sanitize_and_profile_raise a log e log' :
  sanitize_and_profile a log = (Raise e, log') → log' = log.
Proof. apply silent_eq, silent_sanitize_and_profile. Qed.

(** Every call of the plan carries the structure and the bound of the
    profile. *)
Lemma planned_calls_enum_call a p c :
  c ∈ planned_calls a p → ∃ cs, c = enum_call a p cs.
Proof.
  unfold planned_calls, ferri_by_motif_calls, ferri_by_species_calls,
    afm_by_motif_calls.
  rewrite elem_of_cons, elem_of_app. intros [-> | [Hin | Hin]]; [eauto| |].
  - destruct (ferri_by_motif_gate a p); [|destruct (ferri_by_species_gate a p)].
    + apply list_elem_of_fmap in Hin as (cn & -> & _). eauto.
    + apply list_elem_of_fmap in Hin as (sp & -> & _). eauto.
    + by apply elem_of_nil in Hin.
  - destruct (attempt_afm_by_motif a).
    + apply list_elem_of_fmap in Hin as (cn & -> & _). eauto.
    + by apply elem_of_nil in Hin.
Qed.

Lemma candidate_pool_log a r log :
  run (candidate_pool a) = (r, log) →
  (∃ e, run (sanitize_and_profile a) = (Raise e, []) ∧ r = Raise e ∧ log = [])
  ∨ (∃ p, run (sanitize_and_profile a) = (Ok p, []) ∧
          log `prefix_of` planned_calls a p ∧
          (is_ok r → log = planned_calls a p ∧ ∃ pool, r = Ok (p, pool))).
Proof.
  unfold run, candidate_pool. unfold bind at 1.
  destruct (sanitize_and_profile a []) as [[p|e] log0] eqn:Hsan.
  - apply sanitize_and_profile_ok in Hsan as Hinv. destruct Hinv as [-> _].
    unfold bind.
    destruct (enumerate_orderings a p []) as [[pool|e] log1] eqn:Henum;
      apply enumerate_orderings_log in Henum as (ext & -> & Hpre & Hok);
      simpl in *; intros [= <- <-]; right; exists p.
    + split; [done|]. split; [done|]. intros _. split; [by apply Hok | eauto].
    + split; [done|]. split; [done|]. done.
  - apply sanitize_and_profile_raise in Hsan as Hlog. subst log0.
    intros [= <- <-]. left. eauto.
Qed.

Lemma silent_track_provenance ia pool : silent (track_provenance ia pool).
Proof.
  unfold track_provenance. case_bool_decide; [|auto with silent].
  destruct (negb _); [auto with silent|].
  apply silent_bind; auto with silent.
Qed.

Lemma silent_add_chain a indexes st item : silent (add_chain a indexes st item).
Proof. unfold add_chain. apply silent_bind; auto with silent. Qed.

Lemma silent_build_workflow a p pool indexes :
  silent (build_workflow a p pool indexes).
Proof.
  unfold build_workflow. apply silent_bind; [|auto with silent].
  apply silent_for_each. intros. apply silent_add_chain.
Qed.

Lemma silent_finish a pp : silent (finish a pp).
Proof.
  unfold finish.
  apply silent_bind; [apply silent_track_provenance | intros].
  apply silent_bind; [apply silent_build_workflow | intros].
  apply silent_bind; auto with silent.
Qed.

(** The log of a whole run is the log of its enumeration. *)
Lemma get_wf_magnetic_orderings_log a r log :
  run (get_wf_magnetic_orderings a) = (r, log) →
  ∃ r0, run (candidate_pool a) = (r0, log) ∧ (is_ok r → is_ok r0).
Proof.
  unfold run, get_wf_magnetic_orderings, bind.
  destruct (candidate_pool a []) as [[pp|e] log0] eqn:Hpool.
  - intros Hfin. apply (silent_eq _ _ _ _ (silent_finish a pp)) in Hfin as ->.
    by exists (Ok pp).
  - intros [= <- <-]. by exists (Raise e).
Qed.

End Pipeline.

(** ** The graph builder *)

Section Graph.
Context `{!Pymatgen}.

Lemma add_chain_loop a indexes items fws parents log :
  Forall (λ item : nat * Structure, is_Some (indexes !! item.1)) items →
  ∃ fws' parents',
    for_each items (add_chain a indexes) (fws, parents) log
      = (Ok (fws ++ fws', parents ++ parents'), log) ∧
    chains (length fws) items.*2 fws' parents'.
Proof.
  intros Hidx. revert fws parents.
  induction Hidx as [|[idx s] items [index Hindex] _ IH]; intros fws parents.
  - exists [], []. simpl. rewrite !app_nil_r. split; [done | constructor].
  - simpl in Hindex. simpl. unfold bind at 1, add_chain at 1. simpl.
    rewrite Hindex. simpl.
    match goal with |- context [for_each items _ (?F, ?A) log] =>
      destruct (IH F A) as (fws' & parents' & -> & Hchains) end.
    rewrite !length_app in Hchains. simpl in Hchains.
    replace (length fws + 1 + 1) with (S (S (length fws))) in Hchains by lia.
    eexists (_ :: _ :: fws'), (_ :: parents'). split.
    + rewrite <-!app_assoc. simpl. reflexivity.
    + rewrite length_app, Nat.add_1_r. simpl.
      by constructor.
Qed.

Lemma enumerate_indices_in_range {A} (l : list A) (indexes : list Z) :
  length indexes = length l →
  Forall (λ item : nat * A, is_Some (indexes !! item.1)) (enumerate l).
Proof.
  intros Hlen. apply Forall_forall. intros [i x] Hin.
  apply list_elem_of_lookup in Hin as [i' Hin].
  apply enumerate_lookup in Hin as [<- Hl]. simpl in *.
  apply lookup_lt_is_Some. apply lookup_lt_Some in Hl. lia.
Qed.

(** The builder goes through for every pool and returns the chains
    followed by the aggregate node. *)
Lemma build_workflow_ok a p pool indexes log :
  length indexes = length pool →
  ∃ fws parents,
    chains 0 pool fws parents ∧
    build_workflow a p pool indexes log =
      (Ok (mkWorkflow
             (fws ++ [mkFirework (length fws) "Magnetic Orderings Analysis"
                        (MagneticOrderingsToDB uuid4 (pf_structure p)
                           (vasp_input_set_kwargs a) (perform_bader a))
                        parents])
             (pf_formula p +:+ " - magnetic orderings")
             (Some (uuid4, "magnetic_orderings", "1.3"))
             ["magnetic_orderings group: >>" +:+ uuid4 +:+ "<<"]), log).
Proof.
  intros Hlen.
  destruct (add_chain_loop a indexes (enumerate pool) [] [] log
              (enumerate_indices_in_range pool indexes Hlen))
    as (fws & parents & Hloop & Hchains).
  rewrite enumerate_snd in Hchains. simpl in *.
  exists fws, parents. split; [done|].
  unfold build_workflow, bind. by rewrite Hloop.
Qed.

End Graph.

Lemma static_not_relax fw : is_static fw = true → is_relax fw = false.
Proof. unfold is_static, is_relax. by destruct (fw_task fw). Qed.

Lemma relax_not_static fw : is_relax fw = true → is_static fw = false.
Proof. unfold is_static, is_relax. by destruct (fw_task fw). Qed.

Lemma relax_not_aggregate fw : is_relax fw = true → is_aggregate fw = false.
Proof. unfold is_aggregate, is_relax. by destruct (fw_task fw). Qed.

Lemma static_not_aggregate fw : is_static fw = true → is_aggregate fw = false.
Proof. unfold is_aggregate, is_static. by destruct (fw_task fw). Qed.

Lemma filter_none {A} (P : A → Prop) `{!∀ x, Decision (P x)} (l : list A) :
  Forall (λ x, ¬ P x) l → filter P l = [].
Proof.
  induction 1 as [|x l Hx _ IH]; [done|].
  by rewrite filter_cons_False.
Qed.

Section Chains.
Implicit Types (pool : list Structure) (fws : list Firework) (parents : list nat).

Lemma chains_relax n pool fws parents :
  chains n pool fws parents →
  fw_structure <$> filter (λ fw, is_relax fw = true) fws = Some <$> pool.
Proof.
  induction 1 as [|n s pool rx st fws parents ? Hrx Hsx ? ? Hst%static_not_relax ? ? _ IH];
    [done|].
  rewrite filter_cons_True by done.
  rewrite filter_cons_False by (by rewrite Hst).
  rewrite !fmap_cons. by rewrite Hsx, IH.
Qed.

Lemma chains_static n pool fws parents :
  chains n pool fws parents →
  fw_structure <$> filter (λ fw, is_static fw = true) fws = Some <$> pool.
Proof.
  induction 1 as [|n s pool rx st fws parents ? Hrx%relax_not_static ? ? ? Hst Hss ? _ IH];
    [done|].
  rewrite filter_cons_False by (by rewrite Hrx).
  rewrite filter_cons_True by done.
  rewrite !fmap_cons. by rewrite Hss, IH.
Qed.

Lemma chains_parents n pool fws parents :
  chains n pool fws parents →
  parents = fw_id <$> filter (λ fw, is_static fw = true) fws.
Proof.
  induction 1 as [|n s pool rx st fws parents ? Hrx%relax_not_static ? ? Hid Hst ? ? _ IH];
    [done|].
  rewrite filter_cons_False by (by rewrite Hrx).
  rewrite filter_cons_True by done.
  rewrite !fmap_cons. by rewrite Hid, IH.
Qed.

Lemma chains_ids n pool fws parents :
  chains n pool fws parents → fw_id <$> fws = seq n (length fws).
Proof.
  induction 1 as [|n s pool rx st fws parents Hidr ? ? ? Hids ? ? ? _ IH]; [done|].
  rewrite !fmap_cons. cbn [length seq]. by rewrite Hidr, Hids, IH.
Qed.

Lemma chains_pairs n pool fws parents k rx st :
  chains n pool fws parents →
  filter (λ fw, is_relax fw = true) fws !! k = Some rx →
  filter (λ fw, is_static fw = true) fws !! k = Some st →
  fw_parents rx = [] ∧ fw_parents st = [fw_id rx].
Proof.
  intros Hch. revert k.
  induction Hch as [|n s pool rx' st' fws parents Hidr Hrx ? Hpr ? Hst ? Hps _ IH];
    intros k; [done|].
  rewrite (filter_cons_True (λ fw, is_relax fw = true) rx') by done.
  rewrite (filter_cons_False (λ fw, is_relax fw = true) st')
    by (by rewrite (static_not_relax _ Hst)).
  rewrite (filter_cons_False (λ fw, is_static fw = true) rx')
    by (by rewrite (relax_not_static _ Hrx)).
  rewrite (filter_cons_True (λ fw, is_static fw = true) st') by done.
  destruct k as [|k]; simpl.
  - intros [= <-] [= <-]. by rewrite Hps, Hidr.
  - apply IH.
Qed.

(** Inside the chains every dependency points to an older node, every
    node is a relax or a static node, and every identity collected in
    [parents] is one of the chains. *)
Lemma chains_order n pool fws parents :
  chains n pool fws parents →
  Forall (λ fw, is_aggregate fw = false ∧ n ≤ fw_id fw
                ∧ ∀ q, q ∈ fw_parents fw → q < fw_id fw) fws
  ∧ Forall (λ q, q < n + length fws) parents.
Proof.
  induction 1 as [|n s pool rx st fws parents Hidr Hrx ? Hpr Hids Hst ? Hps _ [IH1 IH2]].
  - split; constructor.
  - split.
    + constructor.
      { rewrite Hpr, Hidr. split; [by apply relax_not_aggregate|].
        split; [lia|]. by intros q ?%elem_of_nil. }
      constructor.
      { rewrite Hps, Hids. split; [by apply static_not_aggregate|].
        split; [lia|]. intros q ->%list_elem_of_singleton. lia. }
      eapply Forall_impl; [exact IH1|]. simpl. intros fw (? & ? & ?).
      repeat split; [done | lia | done].
    + constructor; [simpl; lia|].
      eapply Forall_impl; [exact IH2|]. simpl. intros; lia.
Qed.

(** Every node of the chains feeds the aggregate node, directly or through
    its static node. *)
Lemma chains_feed n pool fws parents fw :
  chains n pool fws parents → fw ∈ fws →
  fw_id fw ∈ parents
  ∨ ∃ st, st ∈ fws ∧ fw_id fw ∈ fw_parents st ∧ fw_id st ∈ parents.
Proof.
  induction 1 as [|n s pool rx st fws parents Hidr Hrx ? Hpr Hids Hst ? Hps _ IH];
    [by intros ?%elem_of_nil|].
  rewrite !elem_of_cons. intros [-> | [-> | Hin]].
  - right. exists st. rewrite !elem_of_cons, Hps, Hidr, Hids.
    split; [auto|]. split; [by apply list_elem_of_singleton | auto].
  - left. rewrite Hids. by left.
  - destruct (IH Hin) as [Hp | (st' & Hst' & Hdep & Hp)].
    + left. by right.
    + right. exists st'. rewrite !elem_of_cons. auto.
Qed.

End Chains.

Lemma tc_increasing (R : nat → nat → Prop) a b :
  (∀ x y, R x y → x < y) → tc R a b → a < b.
Proof.
  intros HR. induction 1 as [x y Hxy | x y z Hxy _ IH].
  - by apply HR.
  - specialize (HR _ _ Hxy). lia.
Qed.

(** The chains of a pool closed by an aggregate node form a graph with the
    invariant. *)
Lemma chains_graph_invariant pool fws parents agg name meta tags :
  chains 0 pool fws parents →
  is_aggregate agg = true → fw_id agg = length fws → fw_parents agg = parents →
  graph_invariant (mkWorkflow (fws ++ [agg]) name meta tags) pool.
Proof.
  intros Hch Hagg Hid Hpar.
  assert (is_relax agg = false) as Hnr
    by (revert Hagg; unfold is_aggregate, is_relax; by destruct (fw_task agg)).
  assert (is_static agg = false) as Hns
    by (revert Hagg; unfold is_aggregate, is_static; by destruct (fw_task agg)).
  destruct (chains_order _ _ _ _ Hch) as [Hord Hpars].
  assert (∀ x y, wf_edge (mkWorkflow (fws ++ [agg]) name meta tags) x y → x < y)
    as Hedge.
  { intros x y (fw & Hin & <- & Hx). simpl in Hin.
    apply elem_of_app in Hin as [Hin | ->%list_elem_of_singleton].
    - eapply Forall_forall in Hord as (_ & _ & Hlt); [|exact Hin]. by apply Hlt.
    - rewrite Hpar in Hx. rewrite Hid.
      eapply Forall_forall in Hpars; [|exact Hx]. simpl in Hpars. lia. }
  split.
  - unfold relax_nodes. simpl. rewrite filter_app, filter_cons_False by (by rewrite Hnr).
    rewrite filter_nil, app_nil_r. by eapply chains_relax.
  - unfold static_nodes. simpl. rewrite filter_app, filter_cons_False by (by rewrite Hns).
    rewrite filter_nil, app_nil_r. by eapply chains_static.
  - unfold relax_nodes, static_nodes. simpl. intros k rx st.
    rewrite !filter_app.
    rewrite (filter_cons_False (λ fw, is_relax fw = true) agg) by (by rewrite Hnr).
    rewrite (filter_cons_False (λ fw, is_static fw = true) agg) by (by rewrite Hns).
    rewrite !filter_nil, !app_nil_r. by eapply chains_pairs.
  - exists agg. unfold aggregate_nodes, static_nodes. simpl.
    rewrite !filter_app.
    rewrite (filter_cons_True (λ fw, is_aggregate fw = true) agg) by done.
    rewrite (filter_cons_False (λ fw, is_static fw = true) agg) by (by rewrite Hns).
    rewrite !filter_nil, app_nil_r. split; [|split].
    + rewrite filter_none; [done|].
      eapply Forall_impl; [exact Hord|]. simpl. intros fw [Hf _]. by rewrite Hf.
    + rewrite Hpar. by eapply chains_parents.
    + intros fw Hin Hne.
      apply elem_of_app in Hin as [Hin | ->%list_elem_of_singleton]; [|done].
      assert (∀ q, q ∈ parents →
                wf_edge (mkWorkflow (fws ++ [agg]) name meta tags) q (fw_id agg))
        as Hlast.
      { intros q Hq. exists agg. simpl. rewrite elem_of_app, list_elem_of_singleton.
        rewrite Hpar. auto. }
      destruct (chains_feed _ _ _ _ _ Hch Hin) as [Hp | (st & Hst & Hdep & Hp)].
      * apply tc_once. by apply Hlast.
      * eapply tc_l; [|apply tc_once, Hlast, Hp].
        exists st. simpl. rewrite elem_of_app. auto.
  - simpl. rewrite fmap_app, (chains_ids _ _ _ _ Hch). simpl. rewrite Hid.
    replace (seq 0 (length fws) ++ [length fws]) with (seq 0 (S (length fws)))
      by (by rewrite seq_S).
    apply NoDup_seq.
  - intros x Hx. apply (tc_increasing _ _ _ Hedge) in Hx. lia.
Qed.

(** ** Provenance and the returned triple *)

Section Provenance.
Context `{!Pymatgen}.

Lemma existsb_id_map {A} (f : A → bool) (l : list A) :
  existsb id (map f l) = existsb f l.
Proof. induction l as [|x l IH]; simpl; [done | by rewrite IH]. Qed.

Lemma candidate_pool_ok a p pool log :
  run (candidate_pool a) = (Ok (p, pool), log) →
  run (sanitize_and_profile a) = (Ok p, []) ∧
  ∃ raw, enumerate_orderings a p [] = (Ok raw, log) ∧ pool = remove_duplicates raw.
Proof.
  unfold run, candidate_pool.
  intros (p' & log1 & Hsan & Hrest)%bind_ok_inv.
  apply sanitize_and_profile_ok in Hsan as Hinv. destruct Hinv as [-> _].
  apply bind_ok_inv in Hrest as (raw & log2 & Henum & Hret).
  injection Hret as -> <- ->. eauto.
Qed.

Lemma track_provenance_lengths ia pool0 log pool indexes dbg log' :
  track_provenance ia pool0 log = (Ok (pool, indexes, dbg), log') →
  length indexes = length pool.
Proof.
  unfold track_provenance. case_bool_decide.
  - destruct (negb _).
    + intros [= <- <- _ _]. rewrite !length_app, length_fmap, length_seq. done.
    + intros (i & log1 & _ & [= <- <- _ _])%bind_ok_inv.
      by rewrite length_fmap, length_seq.
  - intros [= <- <- _ _]. by rewrite length_fmap, length_seq.
Qed.

Lemma index_true_is_Some (l : list bool) :
  existsb id l = true → is_Some (index_true l).
Proof.
  induction l as [|[] l IH]; simpl; [done | eauto |].
  intros [i Hi]%IH. rewrite Hi. eauto.
Qed.

(** Once the deduplicated pool exists, a magnetic input makes the run
    return. *)
Lemma magnetic_input_returns a p pool log :
  run (candidate_pool a) = (Ok (p, pool), log) →
  an_ordering (pf_input_analyzer p) ≠ NM →
  ∃ wf i final, run (get_wf_magnetic_orderings a) = (Ok (wf, i, final), log).
Proof.
  intros Hpool Hmag.
  assert (∃ final indexes d,
            track_provenance (pf_input_analyzer p) pool log
              = (Ok (final, indexes, Some d), log))
    as (final & indexes & d & Hprov).
  { unfold track_provenance. rewrite bool_decide_true by done.
    destruct (existsb id _) eqn:Hany; simpl; [|by eexists _, _, _].
    apply index_true_is_Some in Hany as [i Hi]. unfold bind. rewrite Hi.
    by eexists _, _, _. }
  apply track_provenance_lengths in Hprov as Hlen.
  destruct (build_workflow_ok a p final indexes log Hlen)
    as (fws & parents & _ & Hbuild).
  unfold run, get_wf_magnetic_orderings in *.
  rewrite (bind_ok _ _ _ _ _ Hpool). unfold finish. simpl.
  rewrite (bind_ok _ _ _ _ _ Hprov). simpl.
  rewrite (bind_ok _ _ _ _ _ Hbuild).
  eexists _, _, _. reflexivity.
Qed.

(** The shape of what [finish] returns. *)
Lemma finish_ok a pp log wf i pool log' :
  finish a pp log = (Ok (wf, i, pool), log') →
  ∃ fws parents,
    chains 0 pool fws parents ∧
    wf_fws wf = fws ++ [mkFirework (length fws) "Magnetic Orderings Analysis"
                          (MagneticOrderingsToDB uuid4 (pf_structure pp.1)
                             (vasp_input_set_kwargs a) (perform_bader a))
                          parents].
Proof.
  unfold finish.
  intros ([[pool1 indexes] dbg] & log1 & Hprov & Hrest)%bind_ok_inv.
  apply track_provenance_lengths in Hprov as Hlen.
  apply bind_ok_inv in Hrest as (wf1 & log2 & Hwf & Hrest). simpl in *.
  apply bind_ok_inv in Hrest as (d & log3 & _ & [= <- _ <- _]).
  destruct (build_workflow_ok a pp.1 pool1 indexes log1 Hlen)
    as (fws & parents & Hch & Hbuild).
  rewrite Hbuild in Hwf. injection Hwf as <- _.
  exists fws, parents. done.
Qed.

Lemma finish_graph_invariant a pp log wf i pool log' :
  finish a pp log = (Ok (wf, i, pool), log') → graph_invariant wf pool.
Proof.
  intros (fws & parents & Hch & Hfws)%finish_ok.
  destruct wf as [fws0 name meta tags]. simpl in Hfws. subst fws0.
  by eapply chains_graph_invariant.
Qed.

End Provenance.

(** ** The site property written by the profiler *)

Lemma add_site_property_frame name values s s' :
  add_site_property name values s = Some s' →
  len s' = len s ∧
  ∀ i st st', sites s !! i = Some st → sites s' !! i = Some st' →
    specie st' = specie st ∧ frac_coords st' = frac_coords st ∧
    (∃ v, values !! i = Some v ∧ properties st' !! name = Some v) ∧
    ∀ other, other ≠ name → properties st' !! other = properties st !! other.
Proof.
  unfold add_site_property. case_bool_decide as Hlen; [|done].
  intros [= <-]. unfold len in *. simpl. split.
  - rewrite length_zip_with. lia.
  - intros i st st' Hst Hst'.
    apply lookup_zip_with_Some in Hst' as (st0 & v & -> & Hst0 & Hv).
    rewrite Hst in Hst0. injection Hst0 as <-. simpl.
    repeat split; try done.
    + exists v. by rewrite lookup_insert_eq.
    + intros other Hne. by rewrite lookup_insert_ne.
Qed.

(** With no other environment left, the second constraint of the
    by-environment pair names a property and lists no value. *)
Lemma ferri_by_motif_constraints_refused (u : gset Z) cn :
  u ∖ {[cn]} = ∅ →
  head (omap constraint_error (ferri_by_motif_constraints u cn))
  = Some (ValueError "Please specify some site constraints.").
Proof.
  intros Hu. unfold ferri_by_motif_constraints. rewrite Hu, elements_empty.
  cbn [omap list_omap]. unfold constraint_error at 1. cbn.
  by case_bool_decide.
Qed.

Section SingleEnvironment.
Context `{!Pymatgen}.

Lemma enumerate_orderings_single_environment a p log :
  ferri_by_motif_gate a p = true →
  size (pf_unique_cns p) = 1 →
  let afm := enum_call a p (afm_constraints
                              (an_types_of_magnetic_specie (pf_analyzer p))) in
  ∃ e ext, enumerate_orderings a p log = (Raise e, log ++ ext) ∧
           ext `prefix_of` [afm] ∧
           ∀ fm, ferromagnetic_seed p log = (Ok fm, log) → call_ok afm = true →
                 e = ValueError "Please specify some site constraints." ∧ ext = [afm].
Proof.
  intros Hgate Hsize afm.
  apply size_1_elem_of in Hsize as [cn Hu]. apply leibniz_equiv in Hu.
  unfold enumerate_orderings. rewrite Hgate, Hu, elements_singleton.
  unfold bind at 1.
  destruct (ferromagnetic_seed p log) as [[fm|e] log0] eqn:Hfm;
    apply (silent_eq _ _ _ _ (silent_ferromagnetic_seed p)) in Hfm as Hlog;
    subst log0.
  2:{ exists e, []. rewrite app_nil_r. split; [done|].
      split; [apply prefix_nil | done]. }
  unfold bind at 1. rewrite constrained_call_afm. fold afm.
  unfold enumerate_and_add at 1, bind at 1, call_generator at 1.
  destruct (apply_transformation afm) as [e|o] eqn:Hcall.
  { exists e, [afm]. split; [done|]. split; [done|].
    intros _ _ Hok. unfold call_ok in Hok. by rewrite Hcall in Hok. }
  cbn [ret]. unfold bind at 1. cbn [for_each]. unfold bind at 1.
  destruct (constrained_call_cases a p
              (ferri_by_motif_constraints {[cn]} cn)
              (_add_structures [fm] o) (log ++ [afm])) as [[Hpass _] | (e & He & ->)].
  - pose proof (ferri_by_motif_constraints_refused {[cn]} cn
                  (difference_diag_L _)) as Hno.
    by rewrite Hpass in Hno.
  - rewrite ferri_by_motif_constraints_refused in He by apply difference_diag_L.
    injection He as <-.
    eexists _, [afm]. split; [done|]. split; [done|]. done.
Qed.

End SingleEnvironment.

(** * The claims *)

Section Claims.
Context `{!Pymatgen}.

(** C1.  The graph returned by a run has, for each candidate of the final
    pool, one relax node and one static node that depends on that relax
    node only; it has one aggregate node, whose predecessors are all the
    static nodes and which every other node reaches; and it has no cycle. *)
Theorem returned_graph_invariant a wf i pool log :
  run (get_wf_magnetic_orderings a) = (Ok (wf, i, pool), log) →
  graph_invariant wf pool.
Proof.
  unfold run, get_wf_magnetic_orderings.
  intros (pp & log1 & _ & Hfin)%bind_ok_inv. by eapply finish_graph_invariant.
Qed.

(** C5.  When the input is magnetic and matches no candidate of the
    deduplicated pool, the run returns the pool with the analyzed input
    appended, the index -1, and a pool one longer than before. *)
Theorem unmatched_input_appended a p pool log :
  run (candidate_pool a) = (Ok (p, pool), log) →
  an_ordering (input_analyzer_of a) ≠ NM →
  existsb (an_matches_ordering (input_analyzer_of a)) pool = false →
  ∃ wf,
    run (get_wf_magnetic_orderings a)
      = (Ok (wf, (-1)%Z, pool ++ [an_structure (input_analyzer_of a)]), log)
    ∧ length (pool ++ [an_structure (input_analyzer_of a)]) = S (length pool).
Proof.
  intros Hpool Hmag Hnone.
  apply candidate_pool_ok in Hpool as Hinv. destruct Hinv as [Hsan _].
  apply sanitize_and_profile_ok in Hsan as (_ & _ & _ & _ & _ & _ & Hia & _).
  set (final := pool ++ [an_structure (input_analyzer_of a)]).
  set (indexes := (Z.of_nat <$> seq 0 (length pool)) ++ [(-1)%Z]).
  assert (length indexes = length final) as Hlen
    by (unfold indexes, final; by rewrite !length_app, length_fmap, length_seq).
  destruct (build_workflow_ok a p final indexes log Hlen)
    as (fws & parents & _ & Hbuild).
  eexists. split.
  - unfold run, get_wf_magnetic_orderings in *.
    rewrite (bind_ok _ _ _ _ _ Hpool). unfold finish. simpl.
    unfold bind at 1, track_provenance. rewrite Hia.
    rewrite bool_decide_true by done.
    rewrite existsb_id_map, Hnone. simpl.
    fold final indexes. unfold bind at 1. rewrite Hbuild. reflexivity.
  - unfold final. rewrite length_app. simpl. lia.
Qed.

(** C2.  For an input that the analyzer classifies as non-magnetic the
    provenance stage leaves [debug_match_index] unbound, and the return
    statement then raises: the run does not return the graph and the pool. *)
Theorem nonmagnetic_input_raises a p pool log :
  run (candidate_pool a) = (Ok (p, pool), log) →
  an_ordering (input_analyzer_of a) = NM →
  run (track_provenance (pf_input_analyzer p) pool)
    = (Ok (pool, Z.of_nat <$> seq 0 (length pool), None), [])
  ∧ run (get_wf_magnetic_orderings a)
    = (Raise (UnboundLocalError "debug_match_index"), log).
Proof.
  intros Hpool Hnm.
  apply candidate_pool_ok in Hpool as Hinv. destruct Hinv as [Hsan _].
  apply sanitize_and_profile_ok in Hsan as (_ & _ & _ & _ & _ & _ & Hia & _).
  assert (∀ log0, track_provenance (pf_input_analyzer p) pool log0
            = (Ok (pool, Z.of_nat <$> seq 0 (length pool), None), log0)) as Hprov.
  { intros log0. unfold track_provenance. rewrite Hia, Hnm.
    by rewrite bool_decide_false by (by intros []). }
  split; [apply Hprov|].
  assert (length (Z.of_nat <$> seq 0 (length pool)) = length pool) as Hlen
    by (by rewrite length_fmap, length_seq).
  destruct (build_workflow_ok a p pool _ log Hlen) as (fws & parents & _ & Hbuild).
  unfold run, get_wf_magnetic_orderings in *.
  rewrite (bind_ok _ _ _ _ _ Hpool). unfold finish. simpl.
  unfold bind at 1. rewrite Hprov. simpl.
  unfold bind at 1. rewrite Hbuild. reflexivity.
Qed.

(** C10.  With more than 8 symmetry-distinct magnetic sites the run raises
    before any generator call and returns no graph; for an ordered and
    collinear input the exception is the one of line 220. *)
Theorem too_many_sites_fails a :
  8 < an_number_of_unique_magnetic_sites (analyzer_of a) →
  (∃ e, run (get_wf_magnetic_orderings a) = (Raise e, []))
  ∧ (is_ordered (structure a) = true →
     an_is_collinear (input_analyzer_of a) = true →
     run (get_wf_magnetic_orderings a)
       = (Raise (ValueError "Too many magnetic sites to sensibly perform enumeration."),
          [])).
Proof.
  intros Hmany.
  assert (∃ e, run (sanitize_and_profile a) = (Raise e, []) ∧
               (is_ordered (structure a) = true →
                an_is_collinear (input_analyzer_of a) = true →
                e = ValueError "Too many magnetic sites to sensibly perform enumeration."))
    as (e & Hsan & He).
  { unfold run, sanitize_and_profile.
    destruct (is_ordered (structure a)); simpl; [|by eexists].
    destruct (an_is_collinear (input_analyzer_of a)); simpl; [|by eexists].
    rewrite bool_decide_true by done. by eexists. }
  assert (run (get_wf_magnetic_orderings a) = (Raise e, [])) as Hrun.
  { unfold run, get_wf_magnetic_orderings, candidate_pool in *.
    apply bind_raise. by apply bind_raise. }
  split; [eauto|]. intros Hord Hcol. by rewrite Hrun, (He Hord Hcol).
Qed.

(** C9.  Without the override, ferrimagnetic enumeration is attempted
    exactly when there is more than one coordination environment or more
    than one magnetic species; with the override it is the override; in
    both cases the decision is a function of the two counts and the
    override alone. *)
Theorem ferrimagnetic_default a p :
  attempt_ferrimagnetic a = None →
  (attempt_ferrimagnetic_resolved a p = true ↔
     1 < size (pf_unique_cns p)
     ∨ 1 < length (an_types_of_magnetic_specie (pf_analyzer p)))
  ∧ (∀ a' p',
       attempt_ferrimagnetic a' = attempt_ferrimagnetic a →
       size (pf_unique_cns p') = size (pf_unique_cns p) →
       length (an_types_of_magnetic_specie (pf_analyzer p'))
         = length (an_types_of_magnetic_specie (pf_analyzer p)) →
       attempt_ferrimagnetic_resolved a' p' = attempt_ferrimagnetic_resolved a p)
  ∧ (∀ b a', attempt_ferrimagnetic a' = Some b →
             attempt_ferrimagnetic_resolved a' p = b).
Proof.
  intros Hnone. unfold attempt_ferrimagnetic_resolved. split; [|split].
  - rewrite Hnone. simpl. case_bool_decide; naive_solver.
  - intros a' p' -> -> ->. done.
  - intros b a' ->. done.
Qed.

(** C8, amended.  Every generator call of a run carries the supplied
    [max_cell_size] when a non-zero one is supplied; when it is unset or
    zero the calls carry [max(1, 4 // number_of_magnetic_sites)], which is 2
    for two magnetic sites. *)
Theorem max_cell_size_of_calls a r log c :
  run (get_wf_magnetic_orderings a) = (r, log) → c ∈ log →
  (∀ m, max_cell_size a = Some m → m ≠ 0%Z → ec_max_cell_size c = m)
  ∧ (max_cell_size a = None ∨ max_cell_size a = Some 0%Z →
     ec_max_cell_size c
       = Z.max 1 (Z.of_nat (4 / an_number_of_magnetic_sites (analyzer_of a))))
  ∧ (max_cell_size a = None → an_number_of_magnetic_sites (analyzer_of a) = 2 →
     ec_max_cell_size c = 2%Z).
Proof.
  intros (r0 & Hpool & _)%get_wf_magnetic_orderings_log Hc.
  apply candidate_pool_log in Hpool as [(e & _ & _ & ->) | (p & Hsan & Hpre & _)];
    [by apply elem_of_nil in Hc|].
  destruct Hpre as [k Hk].
  assert (c ∈ planned_calls a p) as [cs ->]%planned_calls_enum_call
    by (rewrite Hk; apply elem_of_app; auto).
  simpl.
  apply sanitize_and_profile_ok in Hsan as (_ & _ & _ & _ & Hmcs & _).
  split; [|split].
  - intros m Hm Hne. rewrite Hm, (resolve_max_cell_size_supplied m _ _ Hne) in Hmcs.
    by injection Hmcs.
  - intros Hunset.
    by destruct (resolve_max_cell_size_default _ _ _ _ _ Hunset Hmcs) as [-> _].
  - intros Hnone Htwo.
    destruct (resolve_max_cell_size_default _ _ _ _ _ (or_introl Hnone) Hmcs) as [-> _].
    by rewrite Htwo.
Qed.

(** C7.  Deduplication is idempotent for every pool and every matcher: its
    output has nothing left to remove, so a second pass returns it
    unchanged. *)
Theorem remove_duplicates_idempotent (pool : list Structure) :
  structures_to_remove (remove_duplicates pool) = []
  ∧ remove_duplicates (remove_duplicates pool) = remove_duplicates pool.
Proof.
  split; [|apply remove_duplicates_idem].
  apply structures_to_remove_nil. intros i j s t.
  apply remove_duplicates_no_match.
Qed.

(** C6, amended.  When the matcher is symmetric and transitive on the pool,
    an entry is removed exactly when an earlier entry matches it: of two
    matching entries the later one goes, the first entry of each class of
    matching entries stays, and the survivors keep their relative order. *)
Theorem remove_duplicates_keeps_first (pool : list Structure) :
  matcher_symmetric_on pool = true →
  matcher_transitive_on pool = true →
  (∀ j t, pool !! j = Some t →
     j ∈ structures_to_remove pool ↔
     ∃ i s, i < j ∧ pool !! i = Some s ∧ matches s t = true)
  ∧ remove_duplicates pool
    = (filter (λ item : nat * Structure, item.1 ∉ structures_to_remove pool)
              (enumerate pool)).*2
  ∧ remove_duplicates pool `sublist_of` pool.
Proof.
  intros Hsym Htr. split; [|split].
  - intros j t Hj.
    rewrite (removed_iff_inactive pool j t Hsym Hj).
    apply (inactive_iff_earlier_match pool j t Htr Hj).
  - apply remove_duplicates_filter.
  - apply remove_duplicates_sublist.
Qed.

(** C3, amended.  The profiler writes the coordination numbers onto the
    sanitized structure as the site property [cn] and changes nothing else:
    species, coordinates and every other site property are as before.  No
    later stage changes the structure again: every generator call and the
    aggregate node receive the structure that carries [cn]. *)
Theorem profiler_writes_cn_only a p :
  run (sanitize_and_profile a) = (Ok p, []) →
  pf_sanitized p = sanitized_structure a
  ∧ len (pf_structure p) = len (pf_sanitized p)
  ∧ (∀ i st st',
       sites (pf_sanitized p) !! i = Some st →
       sites (pf_structure p) !! i = Some st' →
       specie st' = specie st ∧ frac_coords st' = frac_coords st ∧
       (∃ cn, pf_cns p !! i = Some cn ∧ properties st' !! "cn" = Some cn) ∧
       ∀ other, other ≠ "cn" → properties st' !! other = properties st !! other)
  ∧ (∀ r log, run (get_wf_magnetic_orderings a) = (r, log) →
       (∀ c, c ∈ log → ec_structure c = pf_structure p)
       ∧ ∀ wf i pool, r = Ok (wf, i, pool) →
           ∃ agg uuid strategy bader,
             aggregate_nodes wf = [agg] ∧
             fw_task agg = MagneticOrderingsToDB uuid (pf_structure p) strategy bader).
Proof.
  intros Hsan.
  apply sanitize_and_profile_ok in Hsan as Hinv.
  destruct Hinv as (_ & _ & _ & _ & _ & _ & _ & _ & Hs & _ & Hadd & _).
  rewrite <-Hs in Hadd.
  destruct (add_site_property_frame _ _ _ _ Hadd) as [Hlen Hframe].
  split; [done|]. split; [done|]. split; [exact Hframe|].
  intros r log Hrun. split.
  - intros c Hc.
    apply get_wf_magnetic_orderings_log in Hrun as (r0 & Hpool & _).
    apply candidate_pool_log in Hpool as [(e & He & _) | (p' & Hsan' & [k Hk] & _)].
    + rewrite Hsan in He. done.
    + rewrite Hsan in Hsan'. injection Hsan' as <-.
      assert (c ∈ planned_calls a p) as [cs ->]%planned_calls_enum_call
        by (rewrite Hk; apply elem_of_app; auto).
      done.
  - intros wf i pool ->.
    unfold run, get_wf_magnetic_orderings in Hrun.
    apply bind_ok_inv in Hrun as ([p' pool0] & log1 & Hpool & Hfin).
    apply candidate_pool_ok in Hpool as [Hsan' _].
    rewrite Hsan in Hsan'. injection Hsan' as <-.
    apply finish_ok in Hfin as (fws & parents & Hch & Hfws). simpl in Hfws.
    destruct (chains_order _ _ _ _ Hch) as [Hord _].
    eexists _, _, _, _. split.
    + unfold aggregate_nodes. rewrite Hfws, filter_app.
      rewrite filter_none; [by rewrite filter_cons_True|].
      eapply Forall_impl; [exact Hord|]. simpl. intros fw [Hf _]. by rewrite Hf.
    + reflexivity.
Qed.

(** C4.  The claim lets the by-environment strategy run only with more than
    one coordination environment, as the comments of lines 122-126 and 305
    do; line 303 tests the number of symmetry-distinct magnetic sites
    instead.  When that test passes and the magnetic sites share one
    environment, the branch is entered and the run does not return: the log
    holds at most the antiferromagnetic call, and when the seed is built
    and that call is answered, the first turn of the loop asks for the 1.0
    constraint on an empty list of environments, which the constructor
    refuses with a [ValueError]. *)
Theorem single_environment_enters_motif_branch a p r log :
  run (sanitize_and_profile a) = (Ok p, []) →
  ferri_by_motif_gate a p = true →
  size (pf_unique_cns p) = 1 →
  run (get_wf_magnetic_orderings a) = (r, log) →
  let afm := enum_call a p (afm_constraints
                              (an_types_of_magnetic_specie (pf_analyzer p))) in
  ¬ is_ok r
  ∧ log `prefix_of` [afm]
  ∧ (∀ cn, cn ∈ pf_unique_cns p →
       enum_call a p (ferri_by_motif_constraints (pf_unique_cns p) cn) ∉ log)
  ∧ (∀ fm, run (ferromagnetic_seed p) = (Ok fm, []) → call_ok afm = true →
       r = Raise (ValueError "Please specify some site constraints.")
       ∧ log = [afm]).
Proof.
  intros Hsan Hgate Hsize Hrun afm.
  destruct (enumerate_orderings_single_environment a p [] Hgate Hsize)
    as (e & ext & Henum & Hpre & Hseed).
  fold afm in Hpre, Hseed.
  unfold run, get_wf_magnetic_orderings, candidate_pool in Hrun.
  unfold run in Hsan.
  unfold bind at 1 2 in Hrun. rewrite Hsan in Hrun.
  unfold bind at 1 in Hrun. rewrite Henum in Hrun. injection Hrun as <- <-.
  simpl. split; [by intros []|]. split; [done|]. split.
  2:{ intros fm Hfm Hok. by destruct (Hseed fm Hfm Hok) as [-> ->]. }
  intros cn Hcn Hin.
  assert (enum_call a p (ferri_by_motif_constraints (pf_unique_cns p) cn) = afm)
    as Heq.
  { destruct Hpre as [k Hk]. destruct ext as [|c ext]; [by apply elem_of_nil in Hin|].
    injection Hk as <- Hk. symmetry in Hk. apply app_eq_nil in Hk as [-> _].
    by apply list_elem_of_singleton in Hin. }
  discriminate Heq.
Qed.

End Claims.

(** * The claims at concrete inputs *)

Section Instances.
Import Example.

(** C1 at NiO with an antiferromagnetic input: the run returns, and its
    graph has the invariant. *)
Lemma returned_graph_invariant_witness :
  graph_invariant (workflow_of rock_salt (args_of NiO_afm))
                  (final_pool_of rock_salt (args_of NiO_afm)).
Proof.
  apply (returned_graph_invariant (H:=rock_salt) (args_of NiO_afm)
           (workflow_of rock_salt (args_of NiO_afm))
           (index_of rock_salt (args_of NiO_afm))
           (final_pool_of rock_salt (args_of NiO_afm))
           (log_of rock_salt (args_of NiO_afm))).
  vm_compute. reflexivity.
Defined.

(** C2 at NiO without moments, the input of the module's own driver: the
    run raises at its return statement. *)
Lemma nonmagnetic_input_raises_witness :
  run (get_wf_magnetic_orderings (H:=rock_salt) (args_of NiO_plain))
    = (Raise (UnboundLocalError "debug_match_index"),
       log_of rock_salt (args_of NiO_plain)).
Proof.
  apply (nonmagnetic_input_raises (H:=rock_salt) (args_of NiO_plain)
           (profile_of rock_salt (args_of NiO_plain))
           (pool_of rock_salt (args_of NiO_plain))
           (log_of rock_salt (args_of NiO_plain))).
  - vm_compute. reflexivity.
  - vm_compute. reflexivity.
Defined.

(** C3 as stated fails at NiO: the first site has no [cn] property when the
    sanitizer is done with it and has one after the profiler. *)
Lemma profiler_changes_structure :
  run (sanitize_and_profile (H:=rock_salt) (args_of NiO_afm))
    = (Ok (profile_of rock_salt (args_of NiO_afm)), [])
  ∧ (sites (pf_sanitized (profile_of rock_salt (args_of NiO_afm))) !! 0
       ≫= λ st, properties st !! "cn") = None
  ∧ (sites (pf_structure (profile_of rock_salt (args_of NiO_afm))) !! 0
       ≫= λ st, properties st !! "cn") = Some 6%Z.
Proof. repeat split; vm_compute; reflexivity. Defined.

Lemma profiler_writes_cn_only_witness :
  len (pf_structure (profile_of rock_salt (args_of NiO_afm)))
    = len (pf_sanitized (profile_of rock_salt (args_of NiO_afm))).
Proof.
  apply (profiler_writes_cn_only (H:=rock_salt) (args_of NiO_afm)).
  vm_compute. reflexivity.
Defined.


(** C5 at NiO with an antiferromagnetic input and a generator that finds
    nothing: the input is appended to the ferromagnetic seed. *)
Lemma unmatched_input_appended_witness :
  ∃ wf,
    run (get_wf_magnetic_orderings (H:=rock_salt_silent) (args_of NiO_afm))
      = (Ok (wf, (-1)%Z,
             pool_of rock_salt_silent (args_of NiO_afm)
               ++ [an_structure (input_analyzer_of (H:=rock_salt_silent)
                                   (args_of NiO_afm))]),
         log_of rock_salt_silent (args_of NiO_afm))
    ∧ length (pool_of rock_salt_silent (args_of NiO_afm)
                ++ [an_structure (input_analyzer_of (H:=rock_salt_silent)
                                    (args_of NiO_afm))])
      = S (length (pool_of rock_salt_silent (args_of NiO_afm))).
Proof.
  apply (unmatched_input_appended (H:=rock_salt_silent) (args_of NiO_afm)
           (profile_of rock_salt_silent (args_of NiO_afm))).
  - vm_compute. reflexivity.
  - vm_compute. discriminate.
  - vm_compute. reflexivity.
Defined.

(** C6 as stated fails for a matcher with a tolerance: the second and the
    third candidate match, the third one survives and the second one is
    removed as a duplicate of the first. *)
Lemma later_match_survives :
  matches (Pymatgen:=tolerant) (shifted 1) (shifted 2) = true
  ∧ matches (Pymatgen:=tolerant) (shifted 2) (shifted 1) = true
  ∧ matches (Pymatgen:=tolerant) (shifted 0) (shifted 2) = false
  ∧ structures_to_remove (H:=tolerant) [shifted 0; shifted 1; shifted 2] = [1; 1]
  ∧ remove_duplicates (H:=tolerant) [shifted 0; shifted 1; shifted 2]
    = [shifted 0; shifted 2].
Proof. repeat split; vm_compute; reflexivity. Defined.

Lemma remove_duplicates_keeps_first_witness :
  remove_duplicates (H:=rock_salt) [shifted 0; shifted 1; shifted 0]
    `sublist_of` [shifted 0; shifted 1; shifted 0].
Proof.
  apply (remove_duplicates_keeps_first (H:=rock_salt)).
  - vm_compute. reflexivity.
  - vm_compute. reflexivity.
Defined.

(** C8 as stated fails for [max_cell_size=0]: the supplied value is false
    in Python and the default, 2 for two magnetic sites, is used. *)
Lemma zero_max_cell_size_ignored :
  max_cell_size (with_max_cell_size 0 (args_of NiO_afm)) = Some 0%Z
  ∧ ec_max_cell_size
      <$> log_of rock_salt (with_max_cell_size 0 (args_of NiO_afm)) = [2%Z].
Proof. split; vm_compute; reflexivity. Defined.

Lemma max_cell_size_of_calls_witness :
  Forall (λ c, ec_max_cell_size c = 3%Z)
         (log_of rock_salt (with_max_cell_size 3 (args_of NiO_afm))).
Proof.
  apply Forall_forall. intros c Hc.
  assert (run (get_wf_magnetic_orderings (H:=rock_salt)
                 (with_max_cell_size 3 (args_of NiO_afm)))
          = ((run (get_wf_magnetic_orderings (H:=rock_salt)
                     (with_max_cell_size 3 (args_of NiO_afm)))).1,
             log_of rock_salt (with_max_cell_size 3 (args_of NiO_afm)))) as Hrun
    by (vm_compute; reflexivity).
  destruct (max_cell_size_of_calls (H:=rock_salt) _ _ _ c Hrun Hc) as [Hsupplied _].
  apply (Hsupplied 3%Z); [reflexivity | lia].
Defined.

(** C9 at NiO, one species in one environment: no ferrimagnetic
    enumeration by default. *)
Lemma ferrimagnetic_default_witness :
  attempt_ferrimagnetic_resolved (args_of NiO_afm)
    (profile_of rock_salt (args_of NiO_afm)) = true ↔
  1 < size (pf_unique_cns (profile_of rock_salt (args_of NiO_afm)))
  ∨ 1 < length (an_types_of_magnetic_specie
                  (pf_analyzer (profile_of rock_salt (args_of NiO_afm)))).
Proof.
  apply (ferrimagnetic_default (args_of NiO_afm)
           (profile_of rock_salt (args_of NiO_afm))).
  reflexivity.
Defined.

(** C10 at a cell with nine symmetry-distinct magnetic sites. *)
Lemma too_many_sites_fails_witness :
  run (get_wf_magnetic_orderings (H:=nine_sites) (args_of NiO_afm))
    = (Raise (ValueError "Too many magnetic sites to sensibly perform enumeration."),
       []).
Proof.
  apply (too_many_sites_fails (H:=nine_sites) (args_of NiO_afm)).
  - vm_compute. lia.
  - reflexivity.
  - reflexivity.
Defined.

(** C4 at NiO with two symmetry-distinct octahedral sites and ferrimagnetic
    enumeration requested: one magnetic species and one environment, the
    gate of line 303 passes, and the run ends in the constructor's error
    after the antiferromagnetic call. *)
Lemma single_environment_enters_motif_branch_witness :
  (length (an_types_of_magnetic_specie
             (pf_analyzer (profile_of two_octahedral_sites ferrimagnetic_requested)))
   = 1
   ∧ size (pf_unique_cns (profile_of two_octahedral_sites ferrimagnetic_requested))
     = 1)
  ∧ (run (get_wf_magnetic_orderings (H:=two_octahedral_sites)
            ferrimagnetic_requested)).1
    = Raise (ValueError "Please specify some site constraints.")
  ∧ log_of two_octahedral_sites ferrimagnetic_requested
    = [enum_call ferrimagnetic_requested
         (profile_of two_octahedral_sites ferrimagnetic_requested)
         (afm_constraints (H:=two_octahedral_sites)
            (an_types_of_magnetic_specie
               (pf_analyzer (profile_of two_octahedral_sites
                               ferrimagnetic_requested))))].
Proof.
  split; [split; vm_compute; reflexivity|].
  apply (single_environment_enters_motif_branch (H:=two_octahedral_sites)
           ferrimagnetic_requested
           (profile_of two_octahedral_sites ferrimagnetic_requested)
           (run (get_wf_magnetic_orderings (H:=two_octahedral_sites)
                   ferrimagnetic_requested)).1
           (log_of two_octahedral_sites ferrimagnetic_requested))
    with (fm := returned no_structure
                  (run (ferromagnetic_seed
                          (profile_of two_octahedral_sites ferrimagnetic_requested))));
    vm_compute; reflexivity.
Defined.

(** Line 303 also tests the number of magnetic elements where the comments
    of lines 301-302 and 333 speak of magnetic species.  Iron in two
    oxidation states on a tetrahedral and an octahedral site is two
    magnetic species of one element: the run goes through with one
    by-environment call per environment after the antiferromagnetic call,
    and the by-species branch, whose test of line 334 holds as well, is
    not reached. *)
Lemma one_element_two_species_take_motif_branch :
  is_ok (run (get_wf_magnetic_orderings (H:=spinel_like) (args_of mixed_valence))).1
  ∧ an_types_of_magnetic_specie
      (pf_analyzer (profile_of spinel_like (args_of mixed_valence)))
    = [mkSpecie "Fe" (Some 2%Z) None; mkSpecie "Fe" (Some 3%Z) None]
  ∧ size (pf_unique_cns (profile_of spinel_like (args_of mixed_valence))) = 2
  ∧ ferri_by_motif_gate (args_of mixed_valence)
      (profile_of spinel_like (args_of mixed_valence)) = true
  ∧ ferri_by_species_gate (args_of mixed_valence)
      (profile_of spinel_like (args_of mixed_valence)) = true
  ∧ ec_order_parameter <$> log_of spinel_like (args_of mixed_valence)
    = [ [mkConstraint op_half (Some (Many ["Fe"; "Fe"])) None None];
        [mkConstraint op_half None (Some "cn") (Some (One 6%Z));
         mkConstraint op_one None (Some "cn") (Some (Many [4%Z]))];
        [mkConstraint op_half None (Some "cn") (Some (One 4%Z));
         mkConstraint op_one None (Some "cn") (Some (Many [6%Z]))] ].
Proof.
  split; [vm_compute; exact I|]. repeat split; vm_compute; reflexivity.
Qed.

End Instances.

(** * Further properties *)

(** ** Outcomes of the generator calls *)

Section Tracked.
Context `{!Pymatgen}.

Lemma log_outcome_nil {A} (r : outcome A) : log_outcome r [].
Proof. left. constructor. Qed.

Lemma tracked_silent {A} (m : M A) : silent m → tracked m.
Proof.
  intros Hm log r log' Hrun. exists [].
  rewrite app_nil_r. split; [by eapply silent_eq | apply log_outcome_nil].
Qed.

Lemma log_outcome_ok_clean {A} (a : A) ext :
  log_outcome (Ok a) ext → Forall (λ c, call_ok c = true) ext.
Proof. intros [H0 | (pre & c & e & _ & _ & _ & ?)]; done. Qed.

Lemma tracked_bind {A B} (m : M A) (k : A → M B) :
  tracked m → (∀ a, tracked (k a)) → tracked (bind m k).
Proof.
  intros Hm Hk log r log'. unfold bind.
  destruct (m log) as [[a|e] log1] eqn:Hrun;
    destruct (Hm _ _ _ Hrun) as (ext1 & -> & Hout1).
  - intros Hrest. destruct (Hk a _ _ _ Hrest) as (ext2 & -> & Hout2).
    exists (ext1 ++ ext2). rewrite app_assoc. split; [done|].
    apply log_outcome_ok_clean in Hout1.
    destruct Hout2 as [Hclean | (pre & c & e & -> & Hpre & Hc & ->)].
    + left. by apply Forall_app.
    + right. exists (ext1 ++ pre), c, e. rewrite app_assoc.
      repeat split; try done. by apply Forall_app.
  - intros [= <- <-]. exists ext1. split; [done|].
    destruct Hout1 as [Hclean | (pre & c & e' & -> & Hpre & Hc & Heq)].
    + by left.
    + injection Heq as ->. right. by exists pre, c, e'.
Qed.

Lemma tracked_for_each {A S} (xs : list A) (body : S → A → M S) acc :
  (∀ acc x, tracked (body acc x)) → tracked (for_each xs body acc).
Proof.
  intros Hbody. revert acc.
  induction xs as [|x xs IH]; intros acc; simpl.
  - apply tracked_silent, silent_ret.
  - apply tracked_bind; [apply Hbody | intros; apply IH].
Qed.

Lemma tracked_enumerate_and_add c acc : tracked (enumerate_and_add c acc).
Proof.
  intros log r log'. unfold enumerate_and_add, bind, call_generator.
  destruct (apply_transformation c) as [e|o] eqn:Hc; intros [= <- <-];
    exists [c]; (split; [done|]).
  - right. exists [], c, e. by repeat split.
  - left. constructor; [|done]. unfold call_ok. by rewrite Hc.
Qed.

Lemma tracked_constrained_call a p cs acc : tracked (constrained_call a p cs acc).
Proof.
  unfold constrained_call.
  apply tracked_bind; [apply tracked_silent, silent_construct | intros].
  apply tracked_enumerate_and_add.
Qed.

Lemma tracked_enumerate_orderings a p : tracked (enumerate_orderings a p).
Proof.
  unfold enumerate_orderings.
  apply tracked_bind; [apply tracked_silent, silent_ferromagnetic_seed | intros fm].
  apply tracked_bind; [apply tracked_constrained_call | intros pool1].
  apply tracked_bind.
  - destruct (ferri_by_motif_gate a p); [|destruct (ferri_by_species_gate a p)].
    + apply tracked_for_each. intros. apply tracked_constrained_call.
    + apply tracked_for_each. intros. apply tracked_constrained_call.
    + apply tracked_silent, silent_ret.
  - intros pool2. destruct (attempt_afm_by_motif a).
    + apply tracked_for_each. intros. apply tracked_constrained_call.
    + apply tracked_silent, silent_ret.
Qed.

Lemma tracked_get_wf_magnetic_orderings a : tracked (get_wf_magnetic_orderings a).
Proof.
  unfold get_wf_magnetic_orderings, candidate_pool.
  apply tracked_bind; [|intros; apply tracked_silent, silent_finish].
  apply tracked_bind; [apply tracked_silent, silent_sanitize_and_profile | intros p].
  apply tracked_bind; [apply tracked_enumerate_orderings | intros].
  apply tracked_silent, silent_ret.
Qed.

(** X7.  A generator call that raises ends the run with its exception: it is
    the last call of the log, every call before it was answered, and
    nothing is retried. *)
Theorem generator_failure_ends_run a r log c e :
  run (get_wf_magnetic_orderings a) = (r, log) →
  c ∈ log → apply_transformation c = inl e →
  r = Raise e ∧ ∃ pre, log = pre ++ [c] ∧ Forall (λ c, call_ok c = true) pre.
Proof.
  intros Hrun Hc He.
  destruct (tracked_get_wf_magnetic_orderings a _ _ _ Hrun) as (ext & Hlog & Hout).
  simpl in Hlog. subst ext.
  destruct Hout as [Hclean | (pre & c0 & e0 & -> & Hpre & Hc0 & ->)].
  - eapply Forall_forall in Hclean; [|exact Hc].
    unfold call_ok in Hclean. by rewrite He in Hclean.
  - apply elem_of_app in Hc as [Hc | ->%list_elem_of_singleton].
    + eapply Forall_forall in Hpre; [|exact Hc].
      unfold call_ok in Hpre. by rewrite He in Hpre.
    + rewrite He in Hc0. injection Hc0 as ->. eauto.
Qed.

End Tracked.

(** ** The pool before deduplication *)

Section RawPool.
Context `{!Pymatgen}.

Lemma _add_structures_app acc o :
  _add_structures acc o = acc ++ _add_structures [] o.
Proof.
  unfold _add_structures. destruct (truthy_output o); [done|].
  by rewrite app_nil_r.
Qed.

Lemma enumerate_and_add_ok c acc log acc' log' :
  enumerate_and_add c acc log = (Ok acc', log') →
  acc' = acc ++ added_structures c ∧ log' = log ++ [c].
Proof.
  unfold enumerate_and_add, bind, call_generator, added_structures.
  destruct (apply_transformation c) as [e|o]; [done|].
  intros [= <- <-]. by rewrite _add_structures_app.
Qed.

Lemma constrained_call_ok a p cs acc log acc' log' :
  constrained_call a p cs acc log = (Ok acc', log') →
  acc' = acc ++ added_structures (enum_call a p cs) ∧
  log' = log ++ [enum_call a p cs].
Proof.
  destruct (constrained_call_cases a p cs acc log) as [[_ ->] | (e & _ & ->)];
    [apply enumerate_and_add_ok | done].
Qed.

Lemma for_each_calls_ok {A} a p (mk : A → list MagOrderParameterConstraint)
    (xs : list A) acc log acc' log' :
  for_each xs (λ acc x, constrained_call a p (mk x) acc) acc log = (Ok acc', log') →
  acc' = acc ++ flat_map added_structures ((λ x, enum_call a p (mk x)) <$> xs) ∧
  log' = log ++ ((λ x, enum_call a p (mk x)) <$> xs).
Proof.
  revert acc log. induction xs as [|x xs IH]; intros acc log; simpl.
  - intros [= <- <-]. by rewrite !app_nil_r.
  - intros (acc1 & log1 & [-> ->]%constrained_call_ok & [-> ->]%IH)%bind_ok_inv.
    by rewrite <-!app_assoc.
Qed.

Lemma enumerate_orderings_ok a p log raw log' :
  enumerate_orderings a p log = (Ok raw, log') →
  ∃ fm ext, ferromagnetic_seed p log = (Ok fm, log) ∧ log' = log ++ ext ∧
            ext = planned_calls a p ∧
            raw = fm :: flat_map added_structures ext.
Proof.
  unfold enumerate_orderings.
  intros (fm & log0 & Hfm & Hrest)%bind_ok_inv.
  apply (silent_eq _ _ _ _ (silent_ferromagnetic_seed p)) in Hfm as Hlog.
  subst log0.
  apply bind_ok_inv in Hrest as (pool1 & log1 & [-> ->]%constrained_call_ok & Hrest).
  apply bind_ok_inv in Hrest as (pool2 & log2 & Hferri & Hmotif).
  exists fm, (planned_calls a p). split; [done|].
  unfold planned_calls, ferri_by_motif_calls, ferri_by_species_calls,
    afm_by_motif_calls.
  assert (∃ l, l = (if ferri_by_motif_gate a p then
               (λ cn, enum_call a p (ferri_by_motif_constraints (pf_unique_cns p) cn))
                 <$> elements (pf_unique_cns p)
             else if ferri_by_species_gate a p then
               (λ sp, enum_call a p (ferri_by_species_constraints
                        (an_types_of_magnetic_specie (pf_analyzer p)) sp))
                 <$> an_types_of_magnetic_specie (pf_analyzer p)
             else []) ∧
            pool2 = ([fm] ++ added_structures (enum_call a p (afm_constraints
                        (an_types_of_magnetic_specie (pf_analyzer p)))))
                    ++ flat_map added_structures l ∧
            log2 = (log ++ [enum_call a p (afm_constraints
                        (an_types_of_magnetic_specie (pf_analyzer p)))]) ++ l)
    as (l & Hl & -> & ->).
  { eexists. split; [reflexivity|].
    destruct (ferri_by_motif_gate a p); [|destruct (ferri_by_species_gate a p)].
    - by apply (for_each_calls_ok a p
                  (λ cn, ferri_by_motif_constraints (pf_unique_cns p) cn)) in Hferri.
    - by apply (for_each_calls_ok a p
                  (λ sp, ferri_by_species_constraints
                           (an_types_of_magnetic_specie (pf_analyzer p)) sp)) in Hferri.
    - injection Hferri as <- <-. by rewrite !app_nil_r. }
  rewrite <-Hl.
  assert (∃ l', l' = (if attempt_afm_by_motif a then
               (λ cn, enum_call a p (afm_by_motif_constraints cn))
                 <$> elements (pf_unique_cns p) else []) ∧
            raw = (([fm] ++ added_structures (enum_call a p (afm_constraints
                        (an_types_of_magnetic_specie (pf_analyzer p)))))
                    ++ flat_map added_structures l) ++ flat_map added_structures l' ∧
            log' = ((log ++ [enum_call a p (afm_constraints
                        (an_types_of_magnetic_specie (pf_analyzer p)))]) ++ l) ++ l')
    as (l' & Hl' & -> & ->).
  { eexists. split; [reflexivity|].
    destruct (attempt_afm_by_motif a).
    - by apply (for_each_calls_ok a p (λ cn, afm_by_motif_constraints cn)) in Hmotif.
    - injection Hmotif as <- <-. by rewrite !app_nil_r. }
  rewrite <-Hl'. split; [by rewrite <-!app_assoc|]. split; [done|].
  simpl. rewrite !flat_map_app. by rewrite <-!app_assoc.
Qed.

(** X6.  The pool that goes into deduplication is the ferromagnetic seed
    followed by what each generator call contributed, in the order of the
    calls; the deduplicated pool is not empty. *)
Theorem pool_is_seed_then_calls a p pool log :
  run (candidate_pool a) = (Ok (p, pool), log) →
  ∃ fm raw,
    run (ferromagnetic_seed p) = (Ok fm, []) ∧
    raw = fm :: flat_map added_structures log ∧
    Forall (λ c, call_ok c = true) log ∧
    pool = remove_duplicates raw.
Proof.
  intros Hpool.
  apply candidate_pool_ok in Hpool as (_ & raw & Henum & ->).
  destruct (tracked_enumerate_orderings a p _ _ _ Henum) as (ext & Hext & Hout).
  apply log_outcome_ok_clean in Hout. simpl in Hext. subst ext.
  apply enumerate_orderings_ok in Henum as (fm & ext & Hfm & Hlog & _ & ->).
  simpl in Hlog. subst ext. by exists fm, (fm :: flat_map added_structures log).
Qed.

End RawPool.

(** ** More on deduplication *)

Section DedupMore.
Context `{!Pymatgen}.
Implicit Types (pool : list Structure) (s t : Structure) (i j k n : nat).

Lemma last_active pool n :
  0 < n →
  ∃ m, m < n ∧ active pool m ∧ ∀ k, m < k → k < n → ¬ active pool k.
Proof.
  induction n as [|n IH]; [lia|]. intros _.
  destruct (decide (n ∈ rem_after pool n)) as [Hin | Hact].
  - destruct n as [|n]; [by rewrite rem_after_0 in Hin; apply elem_of_nil in Hin|].
    destruct IH as (m & Hm & Hact & Hmax); [lia|].
    exists m. split; [lia|]. split; [done|].
    intros k Hk1 Hk2. destruct (decide (k = S n)) as [->|]; [by intros []|].
    apply Hmax; lia.
  - exists n. split; [lia|]. split; [done|]. intros; lia.
Qed.

Lemma survivor_exists pool :
  pool ≠ [] → ∃ m s, pool !! m = Some s ∧ m ∉ structures_to_remove pool.
Proof.
  intros Hne.
  assert (0 < length pool) as Hlen by (destruct pool; [done | simpl; lia]).
  destruct (last_active pool (length pool) Hlen) as (m & Hm & Hact & Hmax).
  destruct (lookup_lt_is_Some_2 pool m Hm) as [s Hs].
  exists m, s. split; [done|].
  rewrite structures_to_remove_rem_after, elem_of_rem_after.
  intros (k & u & t & Hk & Hku & Hactk & Hmt & Hmatch & Hne').
  rewrite Hs in Hmt. injection Hmt as <-.
  destruct (decide (k < m)).
  - apply Hact. apply elem_of_rem_after. exists k, u, s. done.
  - apply (Hmax k); [lia | done | done].
Qed.

(** X13.  For every matcher, deduplication returns a subsequence of the pool
    in which no entry matches another one. *)
Theorem survivors_never_match pool :
  remove_duplicates pool `sublist_of` pool
  ∧ ∀ i j s t,
      remove_duplicates pool !! i = Some s →
      remove_duplicates pool !! j = Some t →
      i ≠ j → matches s t = false.
Proof.
  split; [apply remove_duplicates_sublist|].
  intros i j s t. apply remove_duplicates_no_match.
Qed.

(** X14.  Deduplication never empties a pool: a pool with an entry keeps at
    least one, whatever the matcher answers. *)
Theorem remove_duplicates_keeps_one pool :
  pool ≠ [] → remove_duplicates pool ≠ [].
Proof.
  intros (m & s & Hs & Hkept)%survivor_exists.
  rewrite remove_duplicates_filter. intros Hnil.
  apply fmap_nil_inv in Hnil.
  assert ((m, s) ∈ filter (λ item : nat * Structure,
                             item.1 ∉ structures_to_remove pool) (enumerate pool))
    as Hin.
  { apply list_elem_of_filter. split; [done|].
    apply list_elem_of_lookup. exists m. by apply enumerate_lookup. }
  rewrite Hnil in Hin. by apply elem_of_nil in Hin.
Qed.

(** X15.  With a symmetric matcher the first entry of the pool, the
    ferromagnetic seed, stays first. *)
Theorem remove_duplicates_keeps_head pool :
  matcher_symmetric_on pool = true →
  head (remove_duplicates pool) = head pool.
Proof.
  intros Hsym. destruct pool as [|s0 rest]; [done|].
  assert (0 ∉ structures_to_remove (s0 :: rest)) as Hkept.
  { rewrite (removed_iff_inactive (s0 :: rest) 0 s0 Hsym eq_refl).
    intros Hinact. apply Hinact. unfold active. rewrite rem_after_0.
    apply not_elem_of_nil. }
  rewrite remove_duplicates_filter. unfold enumerate. rewrite imap_cons.
  by rewrite filter_cons_True.
Qed.

(** X16.  With a symmetric matcher nothing is dropped without a trace: every
    removed entry matches an earlier entry that survives. *)
Theorem removed_entry_has_survivor pool j t :
  matcher_symmetric_on pool = true →
  pool !! j = Some t → j ∈ structures_to_remove pool →
  ∃ k s, k < j ∧ pool !! k = Some s ∧ (k ∉ structures_to_remove pool)
         ∧ matches s t = true.
Proof.
  intros Hsym Hj Hrem.
  apply (removed_iff_inactive pool j t Hsym Hj) in Hrem.
  destruct (decide (j ∈ rem_after pool j)) as [Hin | Hact]; [|by destruct Hrem].
  apply elem_of_rem_after in Hin as (k & s & t' & Hk & Hks & Hactk & Hj' & Hm & _).
  rewrite Hj in Hj'. injection Hj' as <-.
  exists k, s. repeat split; try done.
  rewrite (removed_iff_inactive pool k s Hsym Hks). by intros Hn.
Qed.

(** X17.  Deduplication returns the pool as it is exactly when no entry
    matches another entry. *)
Theorem remove_duplicates_unchanged_iff pool :
  remove_duplicates pool = pool ↔
  ∀ i j s t, pool !! i = Some s → pool !! j = Some t → i ≠ j →
             matches s t = false.
Proof.
  split.
  - intros Heq i j s t Hi Hj. rewrite <-Heq in Hi, Hj.
    by apply (remove_duplicates_no_match pool i j).
  - intros Hno. unfold remove_duplicates.
    by rewrite (structures_to_remove_nil pool Hno).
Qed.

End DedupMore.

(** ** Validation of the input *)

Section Validation.
Context `{!Pymatgen}.

Lemma get_wf_raise_early a e :
  run (sanitize_and_profile a) = (Raise e, []) →
  run (get_wf_magnetic_orderings a) = (Raise e, []).
Proof.
  intros Hsan. unfold run, get_wf_magnetic_orderings, candidate_pool in *.
  apply bind_raise. by apply bind_raise.
Qed.

(** X1.  An input with partial occupancies is refused with the ValueError of
    line 176, which names the reduced formula, before any generator call. *)
Theorem disordered_input_fails a :
  is_ordered (structure a) = false →
  run (get_wf_magnetic_orderings a)
    = (Raise (ValueError ("Please obtain an ordered approximation of the "
                            +:+ "input structure ("
                            +:+ reduced_formula (structure a) +:+ ").")), []).
Proof.
  intros Hdis. apply get_wf_raise_early.
  unfold run, sanitize_and_profile. by rewrite Hdis.
Qed.

(** X2.  An ordered input whose moments are not collinear is refused with
    the ValueError of line 192 before any generator call, whatever the
    number of its magnetic sites. *)
Theorem noncollinear_input_fails a :
  is_ordered (structure a) = true →
  an_is_collinear (input_analyzer_of a) = false →
  run (get_wf_magnetic_orderings a)
    = (Raise (ValueError ("Input structure (" +:+ reduced_formula (structure a)
                            +:+ ") is non-collinear.")), []).
Proof.
  intros Hord Hnc. apply get_wf_raise_early.
  unfold run, sanitize_and_profile. by rewrite Hord, Hnc.
Qed.

(** X3.  For a cell without magnetic sites the default cell bound divides by
    zero: with [max_cell_size] unset or 0 the run raises ZeroDivisionError
    before any generator call; a non-zero [max_cell_size] avoids it. *)
Theorem no_magnetic_sites_divides_by_zero a :
  is_ordered (structure a) = true →
  an_is_collinear (input_analyzer_of a) = true →
  an_number_of_unique_magnetic_sites (analyzer_of a) ≤ 8 →
  an_number_of_magnetic_sites (analyzer_of a) = 0 →
  (max_cell_size a = None ∨ max_cell_size a = Some 0%Z →
   run (get_wf_magnetic_orderings a) = (Raise ZeroDivisionError, []))
  ∧ (∀ m, max_cell_size a = Some m → m ≠ 0%Z →
     ∃ p, run (sanitize_and_profile a) = (Ok p, []) ∧ pf_max_cell_size p = m).
Proof.
  intros Hord Hcol Hlimit Hzero. split.
  - intros Hunset. apply get_wf_raise_early.
    unfold run, sanitize_and_profile. rewrite Hord, Hcol. simpl.
    rewrite bool_decide_false by lia. rewrite Hzero.
    by destruct Hunset as [-> | ->].
  - intros m Hm Hne.
    destruct (sanitize_and_profile_returns a [] Hord Hcol Hlimit) as [p Hp];
      [left; eauto|].
    exists p. split; [done|].
    apply sanitize_and_profile_ok in Hp as (_ & _ & _ & _ & Hmcs & _).
    rewrite Hm, (resolve_max_cell_size_supplied m _ _ Hne) in Hmcs.
    by injection Hmcs.
Qed.

(** X4.  The coordination number kept for a site is the one of the
    nearest-neighbour query on the sanitized structure when the species of
    the site is magnetic and 0 otherwise; the unique environments are the
    non-zero values on magnetic sites, so 0 is never an environment. *)
Theorem coordination_numbers_of_sites a p :
  run (sanitize_and_profile a) = (Ok p, []) →
  (∀ i st, sites (sanitized_structure a) !! i = Some st →
     pf_cns p !! i
       = Some (if bool_decide (specie st ∈ an_types_of_magnetic_specie (analyzer_of a))
               then get_cn (sanitized_structure a) i else 0%Z))
  ∧ (∀ cn, cn ∈ pf_unique_cns p ↔
       cn ≠ 0%Z ∧
       ∃ i st, sites (sanitized_structure a) !! i = Some st ∧
               specie st ∈ an_types_of_magnetic_specie (analyzer_of a) ∧
               get_cn (sanitized_structure a) i = cn).
Proof.
  intros Hsan.
  apply sanitize_and_profile_ok in Hsan
    as (_ & _ & _ & _ & _ & _ & _ & _ & _ & Hcns & _ & Hu).
  assert (∀ i st, sites (sanitized_structure a) !! i = Some st →
     pf_cns p !! i
       = Some (if bool_decide (specie st ∈ an_types_of_magnetic_specie (analyzer_of a))
               then get_cn (sanitized_structure a) i else 0%Z)) as Hat.
  { intros i st Hst. rewrite Hcns. unfold coordination_numbers.
    apply lookup_zip_with_Some.
    exists (get_cn (sanitized_structure a) i),
           (if bool_decide (specie st ∈ an_types_of_magnetic_specie (analyzer_of a))
            then true else false).
    split; [by case_bool_decide|]. split.
    - rewrite list_lookup_fmap, lookup_seq_lt; [done|].
      unfold len. by eapply lookup_lt_Some.
    - by rewrite list_lookup_fmap, Hst. }
  split; [exact Hat|].
  intros cn. rewrite Hu, elem_of_difference, elem_of_list_to_set.
  rewrite not_elem_of_singleton. split.
  - intros [Hin Hne]. split; [done|].
    apply list_elem_of_lookup in Hin as [i Hi].
    assert (i < len (sanitized_structure a)) as Hlt.
    { rewrite <-(coordination_numbers_length (sanitized_structure a)
                   (an_types_of_magnetic_specie (analyzer_of a))), <-Hcns.
      by eapply lookup_lt_Some. }
    destruct (lookup_lt_is_Some_2 _ _ Hlt) as [st Hst].
    rewrite (Hat i st Hst) in Hi. injection Hi as Hi.
    case_bool_decide as Hmag; [|congruence]. eauto.
  - intros (Hne & i & st & Hst & Hmag & Hcn). split; [|done].
    apply list_elem_of_lookup. exists i.
    rewrite (Hat i st Hst). rewrite bool_decide_true by done. by rewrite Hcn.
Qed.

End Validation.

(** ** The ferromagnetic seed and the families of calls *)

Section Families.
Context `{!Pymatgen}.

(** X5.  The ferromagnetic seed is the analyzer's ferromagnetic structure
    with each site's [magmom] moved into the spin of its species: the
    property is gone, coordinates and the other properties stay; when no
    site carries [magmom] the lookup of line 278 raises KeyError. *)
Theorem ferromagnetic_seed_moves_magmom p log :
  (has_site_property "magmom" (an_get_ferromagnetic_structure (pf_analyzer p)) = false →
   ferromagnetic_seed p log = (Raise (KeyError "magmom"), log))
  ∧ (has_site_property "magmom" (an_get_ferromagnetic_structure (pf_analyzer p)) = true →
     ∃ fm, ferromagnetic_seed p log = (Ok fm, log) ∧
       len fm = len (an_get_ferromagnetic_structure (pf_analyzer p)) ∧
       ∀ i st, sites (an_get_ferromagnetic_structure (pf_analyzer p)) !! i = Some st →
         ∃ st', sites fm !! i = Some st' ∧
           spin (specie st') = properties st !! "magmom" ∧
           symbol (specie st') = symbol (specie st) ∧
           oxi_state (specie st') = oxi_state (specie st) ∧
           frac_coords st' = frac_coords st ∧
           properties st' = delete "magmom" (properties st)).
Proof.
  unfold ferromagnetic_seed, site_property.
  set (fm0 := an_get_ferromagnetic_structure (pf_analyzer p)).
  split; intros Hhas; rewrite Hhas; [done|].
  unfold bind, lookup_or_raise, ret, add_spin_by_site. simpl.
  rewrite bool_decide_true by (by rewrite length_map).
  eexists. split; [reflexivity|]. split.
  - unfold remove_site_property, len. simpl.
    rewrite length_map, length_zip_with, length_map. lia.
  - intros i st Hst. unfold remove_site_property. simpl.
    rewrite list_lookup_fmap.
    erewrite (proj2 (lookup_zip_with_Some _ _ _ _ _)).
    2:{ eexists st, (properties st !! "magmom"). split; [reflexivity|].
        split; [done|]. by rewrite list_lookup_fmap, Hst. }
    simpl. eexists. split; [reflexivity|]. done.
Qed.

Lemma candidate_pool_planned a p pool log :
  run (candidate_pool a) = (Ok (p, pool), log) →
  log = planned_calls a p ∧ pf_analyzer p = analyzer_of a.
Proof.
  intros Hpool.
  apply candidate_pool_ok in Hpool as (Hsan & raw & Henum & _).
  apply sanitize_and_profile_ok in Hsan as (_ & _ & _ & _ & _ & _ & _ & Han & _).
  apply enumerate_orderings_log in Henum as (ext & Hlog & _ & Hok).
  simpl in Hlog. by rewrite Hlog, (Hok I).
Qed.

Lemma get_wf_log_planned a r log :
  run (get_wf_magnetic_orderings a) = (r, log) →
  log = [] ∨ ∃ p, run (sanitize_and_profile a) = (Ok p, []) ∧
                  log `prefix_of` planned_calls a p.
Proof.
  intros (r0 & Hpool & _)%get_wf_magnetic_orderings_log.
  apply candidate_pool_log in Hpool as [(e & _ & _ & ->) | (p & Hsan & Hpre & _)];
    eauto.
Qed.

(** X8.  Every generator call of a run gets the same spin table, timeout and
    number of requested orderings: those of the analyzer of the sanitized
    structure and of the caller. *)
Theorem calls_share_parameters a r log c :
  run (get_wf_magnetic_orderings a) = (r, log) → c ∈ log →
  ec_mag_species_spin c = an_magnetic_species_and_magmoms (analyzer_of a)
  ∧ ec_timeout c = timeout a
  ∧ ec_return_ranked_list c = num_orderings a.
Proof.
  intros [-> | (p & Hsan & [k Hk])]%get_wf_log_planned Hc;
    [by apply elem_of_nil in Hc|].
  assert (c ∈ planned_calls a p) as [cs ->]%planned_calls_enum_call
    by (rewrite Hk; apply elem_of_app; auto).
  apply sanitize_and_profile_ok in Hsan as (_ & _ & _ & _ & _ & _ & _ & Han & _).
  simpl. by rewrite Han.
Qed.

(** X9.  With ferrimagnetic enumeration attempted, the by-environment branch
    not taken and more than one magnetic species, the run makes, after the
    antiferromagnetic call, one call per magnetic species in the analyzer's
    order, with the constraints 0.5 on that species and 1.0 on the other
    species. *)
Theorem ferri_by_species_branch a p pool log :
  run (candidate_pool a) = (Ok (p, pool), log) →
  attempt_ferrimagnetic_resolved a p = true →
  ferri_by_motif_gate a p = false →
  1 < length (an_types_of_magnetic_specie (analyzer_of a)) →
  ∃ first rest,
    log = first :: ((λ sp, enum_call a p
              [mkConstraint op_half (Some (One (str_specie sp))) None None;
               mkConstraint op_one
                 (Some (Many (map str_specie (elements
                    ((list_to_set (an_types_of_magnetic_specie (analyzer_of a))
                        : gset Specie) ∖ {[sp]})))))
                 None None])
            <$> an_types_of_magnetic_specie (analyzer_of a)) ++ rest
    ∧ ec_order_parameter first
        = afm_constraints (an_types_of_magnetic_specie (analyzer_of a))
    ∧ ∀ c, c ∈ rest → ∃ cn, ec_order_parameter c = afm_by_motif_constraints cn.
Proof.
  intros [-> Han]%candidate_pool_planned Hattempt Hmotif Hmany.
  unfold planned_calls, ferri_by_species_calls. rewrite Hmotif.
  unfold ferri_by_species_gate. rewrite Hattempt, Han.
  rewrite bool_decide_true by done. simpl.
  eexists _, _. split; [reflexivity|]. split; [done|].
  intros c Hc. destruct (attempt_afm_by_motif a).
  - apply list_elem_of_fmap in Hc as (cn & -> & _). by exists cn.
  - by apply elem_of_nil in Hc.
Qed.

(** X10.  A run never mixes the two ferrimagnetic families: all its calls
    with two constraints restrict by site property, or all restrict by
    species. *)
Theorem ferrimagnetic_families_exclusive a r log c1 c2 k1 k1' k2 k2' :
  run (get_wf_magnetic_orderings a) = (r, log) →
  c1 ∈ log → c2 ∈ log →
  ec_order_parameter c1 = [k1; k1'] → ec_order_parameter c2 = [k2; k2'] →
  site_constraint_name k1 = site_constraint_name k2
  ∧ (species_constraints k1 = None ↔ species_constraints k2 = None).
Proof.
  intros [-> | (p & _ & [k Hk])]%get_wf_log_planned Hc1 Hc2;
    [by apply elem_of_nil in Hc1|].
  assert (c1 ∈ planned_calls a p) as Hp1 by (rewrite Hk; apply elem_of_app; auto).
  assert (c2 ∈ planned_calls a p) as Hp2 by (rewrite Hk; apply elem_of_app; auto).
  clear Hk Hc1 Hc2. revert Hp1 Hp2.
  unfold planned_calls, ferri_by_motif_calls, ferri_by_species_calls,
    afm_by_motif_calls.
  rewrite !elem_of_cons, !elem_of_app.
  intros [-> | [H1 | H1]] [-> | [H2 | H2]] E1 E2; try done;
    try (destruct (attempt_afm_by_motif a);
         [ match goal with
           | H : _ ∈ _ <$> _ |- _ => apply list_elem_of_fmap in H as (? & -> & _)
           end; done
         | match goal with H : _ ∈ [] |- _ => by apply elem_of_nil in H end ]).
  destruct (ferri_by_motif_gate a p); [|destruct (ferri_by_species_gate a p)].
  - apply list_elem_of_fmap in H1 as (x1 & -> & _).
    apply list_elem_of_fmap in H2 as (x2 & -> & _).
    injection E1 as <- _. injection E2 as <- _. done.
  - apply list_elem_of_fmap in H1 as (x1 & -> & _).
    apply list_elem_of_fmap in H2 as (x2 & -> & _).
    injection E1 as <- _. injection E2 as <- _. done.
  - by apply elem_of_nil in H1.
Qed.

(** X11.  When the motif-based antiferromagnetic attempts are requested, the
    run ends with one call per unique environment, each with the single
    constraint 0.5 on that environment, whatever was decided about
    ferrimagnetic enumeration; when they are not requested, every call with
    a single constraint restricts by species. *)
Theorem afm_by_motif_branch a p pool log :
  run (candidate_pool a) = (Ok (p, pool), log) →
  (attempt_afm_by_motif a = true →
   ∃ front,
     log = front ++ ((λ cn, enum_call a p
                        [mkConstraint op_half None (Some "cn") (Some (One cn))])
                     <$> elements (pf_unique_cns p))
     ∧ ∀ c k, c ∈ front → ec_order_parameter c = [k] → site_constraint_name k = None)
  ∧ (attempt_afm_by_motif a = false →
     ∀ c k, c ∈ log → ec_order_parameter c = [k] → site_constraint_name k = None).
Proof.
  intros [-> Han]%candidate_pool_planned.
  assert (∀ c k,
    c ∈ enum_call a p (afm_constraints (an_types_of_magnetic_specie (pf_analyzer p)))
        :: (if ferri_by_motif_gate a p then ferri_by_motif_calls a p
            else if ferri_by_species_gate a p then ferri_by_species_calls a p
            else []) →
    ec_order_parameter c = [k] → site_constraint_name k = None) as Hfront.
  { intros c k. rewrite elem_of_cons. intros [-> | Hc] Ek.
    - by injection Ek as <-.
    - unfold ferri_by_motif_calls, ferri_by_species_calls in Hc.
      destruct (ferri_by_motif_gate a p); [|destruct (ferri_by_species_gate a p)].
      + by apply list_elem_of_fmap in Hc as (x & -> & _).
      + by apply list_elem_of_fmap in Hc as (x & -> & _).
      + by apply elem_of_nil in Hc. }
  unfold planned_calls. split; intros Hflag; rewrite Hflag.
  - eexists (_ :: _). split; [reflexivity | exact Hfront].
  - rewrite app_nil_r. exact Hfront.
Qed.

(** X12.  When [attempt_ferrimagnetic] is False, or is left unset for an input
    with at most one environment and one magnetic species, and the
    motif-based attempts are off, a run that goes through makes exactly one
    generator call: the antiferromagnetic one over all magnetic species. *)
Theorem single_antiferromagnetic_call a p pool log :
  run (candidate_pool a) = (Ok (p, pool), log) →
  attempt_ferrimagnetic a = Some false
  ∨ (attempt_ferrimagnetic a = None ∧ size (pf_unique_cns p) ≤ 1
     ∧ length (an_types_of_magnetic_specie (analyzer_of a)) ≤ 1) →
  attempt_afm_by_motif a = false →
  log = [enum_call a p
           [mkConstraint op_half
              (Some (Many (map str_specie
                             (an_types_of_magnetic_specie (analyzer_of a)))))
              None None]].
Proof.
  intros [-> Han]%candidate_pool_planned Hoff Hmotif.
  assert (attempt_ferrimagnetic_resolved a p = false) as Hres.
  { unfold attempt_ferrimagnetic_resolved. rewrite Han.
    destruct Hoff as [-> | (-> & Hcn & Hsp)]; [done|]. simpl.
    rewrite bool_decide_false; [done | lia]. }
  unfold planned_calls, ferri_by_motif_gate, ferri_by_species_gate.
  rewrite Hres, Hmotif, Han. done.
Qed.

End Families.

(** ** Provenance and the nodes of the graph *)

Section Nodes.
Context `{!Pymatgen}.

Lemma index_true_spec (l : list bool) k :
  index_true l = Some k →
  l !! k = Some true ∧ ∀ j, j < k → l !! j = Some false.
Proof.
  revert k. induction l as [|b l IH]; intros k; simpl; [done|].
  destruct b.
  - intros [= <-]. split; [done | intros; lia].
  - destruct (index_true l) as [k'|]; [|done]. simpl. intros [= <-].
    destruct (IH k' eq_refl) as [Hk Hbefore]. split; [done|].
    intros [|j] Hj; [done|]. apply Hbefore. lia.
Qed.

Lemma track_provenance_inv ia pool0 log pool indexes dbg log' :
  track_provenance ia pool0 log = (Ok (pool, indexes, dbg), log') →
  log' = log ∧
  ((an_ordering ia = NM ∧ dbg = None ∧ pool = pool0
    ∧ indexes = Z.of_nat <$> seq 0 (length pool0))
   ∨ (an_ordering ia ≠ NM ∧ existsb (an_matches_ordering ia) pool0 = false
      ∧ dbg = Some (-1)%Z ∧ pool = pool0 ++ [an_structure ia]
      ∧ indexes = (Z.of_nat <$> seq 0 (length pool0)) ++ [(-1)%Z])
   ∨ (an_ordering ia ≠ NM
      ∧ ∃ k, index_true (map (an_matches_ordering ia) pool0) = Some k
             ∧ dbg = Some (Z.of_nat k) ∧ pool = pool0
             ∧ indexes = Z.of_nat <$> seq 0 (length pool0))).
Proof.
  intros Hrun.
  assert (log' = log) as ->
    by exact (silent_eq _ _ _ _ (silent_track_provenance _ _) Hrun).
  split; [done|]. revert Hrun. unfold track_provenance.
  case_bool_decide as Hmag.
  - rewrite existsb_id_map.
    destruct (existsb (an_matches_ordering ia) pool0) eqn:Hany; simpl.
    + intros (k & log1 & Hk & [= <- <- <- _])%bind_ok_inv.
      destruct (index_true _) as [k'|] eqn:Hidx; [|done].
      injection Hk as <- _. right. right. eauto 10.
    + intros [= <- <- <-]. right. left. done.
  - intros [= <- <- <-]. left. split; [|done].
    by destruct (decide (an_ordering ia = NM)).
Qed.

Lemma track_provenance_indexes ia pool0 log pool indexes d log' k :
  track_provenance ia pool0 log = (Ok (pool, indexes, Some d), log') →
  k < length pool →
  indexes !! k = Some (index_at d (length pool) k).
Proof.
  intros (_ & [(_ & ? & _) | [(_ & _ & Hd & -> & ->) | (_ & k0 & _ & Hd & -> & ->)]])
         %track_provenance_inv Hk; [done| |].
  - injection Hd as ->. unfold index_at. rewrite length_app in *. simpl in *.
    destruct (decide (k = length pool0)) as [->|Hne].
    + rewrite bool_decide_true by (split; [done | lia]).
      rewrite lookup_app_r by (by rewrite length_fmap, length_seq).
      by rewrite length_fmap, length_seq, Nat.sub_diag.
    + rewrite bool_decide_false by lia.
      rewrite lookup_app_l by (rewrite length_fmap, length_seq; lia).
      rewrite list_lookup_fmap, lookup_seq_lt by lia. done.
  - injection Hd as ->. unfold index_at.
    rewrite bool_decide_false by lia.
    rewrite list_lookup_fmap, lookup_seq_lt by lia. done.
Qed.

Lemma add_chain_eq a indexes fws parents idx s log :
  add_chain a indexes (fws, parents) (idx, s) log =
  match indexes !! idx with
  | Some index =>
      (Ok (fws ++ [relax_fw a (length fws) index s; static_fw (length fws) index s],
           parents ++ [S (length fws)]), log)
  | None => (Raise IndexError, log)
  end.
Proof.
  unfold add_chain, bind. simpl. destruct (indexes !! idx) as [index|]; [|done].
  simpl. rewrite length_app, Nat.add_1_r, <-app_assoc. done.
Qed.

Lemma add_chain_loop_lookup a indexes items fws parents log res log' :
  for_each items (add_chain a indexes) (fws, parents) log = (Ok res, log') →
  length res.1 = length fws + 2 * length items
  ∧ (∀ j, j < length fws → res.1 !! j = fws !! j)
  ∧ res.2 = parents ++ ((λ k, S (length fws + 2 * k)) <$> seq 0 (length items))
  ∧ ∀ k idx s, items !! k = Some (idx, s) →
      ∃ index, indexes !! idx = Some index
        ∧ res.1 !! (length fws + 2 * k)
          = Some (relax_fw a (length fws + 2 * k) index s)
        ∧ res.1 !! S (length fws + 2 * k)
          = Some (static_fw (length fws + 2 * k) index s).
Proof.
  revert fws parents log.
  induction items as [|[idx s] items IH]; intros fws parents log; simpl.
  - intros [= <- <-]. simpl. rewrite app_nil_r.
    repeat split; try done; lia.
  - intros (st & log1 & Hstep & Hrest)%bind_ok_inv.
    rewrite add_chain_eq in Hstep.
    destruct (indexes !! idx) as [index|] eqn:Hindex; [|done].
    injection Hstep as <- <-.
    apply IH in Hrest as (Hlen & Hpre & Hpar & Hnodes).
    rewrite length_app in *. simpl in *.
    split; [lia|]. split; [|split].
    + intros j Hj. rewrite Hpre by lia. by rewrite lookup_app_l.
    + rewrite Hpar, <-app_assoc. simpl. f_equal. f_equal.
      * lia.
      * rewrite <-fmap_S_seq, <-list_fmap_compose.
        apply list_fmap_ext. intros _ k _. simpl. lia.
    + intros [|k] idx' s' Hitem; simpl in Hitem.
      * injection Hitem as <- <-. exists index. split; [done|].
        rewrite Nat.add_0_r. rewrite !Hpre by lia. split.
        -- rewrite lookup_app_r by lia. by rewrite Nat.sub_diag.
        -- rewrite lookup_app_r by lia.
           by replace (S (length fws) - length fws) with 1 by lia.
      * destruct (Hnodes k idx' s' Hitem) as (index' & Hi' & Hr & Hs).
        exists index'. split; [done|].
        replace (length fws + (S k + (S k + 0)))
          with (length fws + 2 + (k + (k + 0))) by lia.
        done.
Qed.

(** What [finish] returned, in full. *)
Lemma finish_inv a pp log wf i pool log' :
  finish a pp log = (Ok (wf, i, pool), log') →
  log' = log ∧
  ∃ indexes fws parents,
    track_provenance (pf_input_analyzer pp.1) pp.2 log
      = (Ok (pool, indexes, Some i), log)
    ∧ for_each (enumerate pool) (add_chain a indexes) ([], []) log
      = (Ok (fws, parents), log)
    ∧ wf = mkWorkflow
             (fws ++ [mkFirework (length fws) "Magnetic Orderings Analysis"
                        (MagneticOrderingsToDB uuid4 (pf_structure pp.1)
                           (vasp_input_set_kwargs a) (perform_bader a))
                        parents])
             (pf_formula pp.1 +:+ " - magnetic orderings")
             (Some (uuid4, "magnetic_orderings", "1.3"))
             ["magnetic_orderings group: >>" +:+ uuid4 +:+ "<<"].
Proof.
  intros Hrun.
  assert (log' = log) as -> by exact (silent_eq _ _ _ _ (silent_finish _ _) Hrun).
  split; [done|]. revert Hrun. unfold finish.
  intros ([[pool1 indexes] dbg] & log1 & Hprov & Hrest)%bind_ok_inv.
  assert (log1 = log) as ->
    by exact (silent_eq _ _ _ _ (silent_track_provenance _ _) Hprov).
  apply bind_ok_inv in Hrest as (wf1 & log2 & Hwf & Hrest). simpl in *.
  assert (log2 = log) as ->
    by exact (silent_eq _ _ _ _ (silent_build_workflow _ _ _ _) Hwf).
  apply bind_ok_inv in Hrest as (d & log3 & Hd & [= <- <- <-]).
  destruct dbg as [d'|]; [|done]. injection Hd as -> _.
  unfold build_workflow in Hwf.
  apply bind_ok_inv in Hwf as ([fws parents] & log4 & Hloop & [= <-]).
  assert (log4 = log) as ->.
  { eapply silent_eq; [|exact Hloop].
    apply silent_for_each. intros. apply silent_add_chain. }
  exists indexes, fws, parents. done.
Qed.

Lemma get_wf_inv a wf i pool log :
  run (get_wf_magnetic_orderings a) = (Ok (wf, i, pool), log) →
  ∃ p dpool, run (candidate_pool a) = (Ok (p, dpool), log) ∧
             finish a (p, dpool) log = (Ok (wf, i, pool), log).
Proof.
  unfold run, get_wf_magnetic_orderings.
  intros ([p dpool] & log1 & Hpool & Hfin)%bind_ok_inv.
  apply finish_inv in Hfin as Hlog. destruct Hlog as [<- _]. eauto.
Qed.

(** X18.  What the returned index means.  A run returns for a magnetic input
    only; the index is -1 when the input matches no candidate of the
    deduplicated pool and was appended to it, and otherwise it is the
    position of the first candidate that the input matches, in a pool left
    as it was. *)
Theorem provenance_index_meaning a wf i pool log :
  run (get_wf_magnetic_orderings a) = (Ok (wf, i, pool), log) →
  an_ordering (input_analyzer_of a) ≠ NM ∧
  ∃ p dpool,
    run (candidate_pool a) = (Ok (p, dpool), log) ∧
    ((i = (-1)%Z ∧ pool = dpool ++ [an_structure (input_analyzer_of a)]
      ∧ existsb (an_matches_ordering (input_analyzer_of a)) dpool = false)
     ∨ ∃ k s, i = Z.of_nat k ∧ pool = dpool ∧ pool !! k = Some s
              ∧ an_matches_ordering (input_analyzer_of a) s = true
              ∧ ∀ j t, j < k → pool !! j = Some t →
                       an_matches_ordering (input_analyzer_of a) t = false).
Proof.
  intros (p & dpool & Hpool & Hfin)%get_wf_inv.
  apply candidate_pool_ok in Hpool as Hinv. destruct Hinv as [Hsan _].
  apply sanitize_and_profile_ok in Hsan as (_ & _ & _ & _ & _ & _ & Hia & _).
  apply finish_inv in Hfin as (_ & indexes & fws & parents & Hprov & _).
  simpl in Hprov. rewrite Hia in Hprov.
  apply track_provenance_inv in Hprov
    as (_ & [(_ & ? & _) | [(Hmag & Hnone & Hd & -> & _)
                           | (Hmag & k & Hk & Hd & -> & _)]]); [done| |].
  - injection Hd as ->. split; [done|]. exists p, dpool. split; [done|]. by left.
  - injection Hd as ->. split; [done|]. exists p, dpool. split; [done|]. right.
    apply index_true_spec in Hk as [Hat Hbefore].
    rewrite list_lookup_fmap in Hat.
    destruct (dpool !! k) as [s|] eqn:Hs; [|done]. injection Hat as Hat.
    exists k, s. repeat split; try done.
    intros j t Hj Ht. specialize (Hbefore j Hj).
    rewrite list_lookup_fmap, Ht in Hbefore. by injection Hbefore.
Qed.

(** The returned workflow, node by node. *)
Lemma returned_workflow_inv a wf i pool log :
  run (get_wf_magnetic_orderings a) = (Ok (wf, i, pool), log) →
  ∃ p fws,
    run (sanitize_and_profile a) = (Ok p, []) ∧
    length fws = 2 * length pool ∧
    (∀ k s, pool !! k = Some s →
       fws !! (2 * k) = Some (relax_fw a (2 * k) (index_at i (length pool) k) s)
       ∧ fws !! S (2 * k) = Some (static_fw (2 * k) (index_at i (length pool) k) s)) ∧
    wf = mkWorkflow
           (fws ++ [mkFirework (2 * length pool) "Magnetic Orderings Analysis"
                      (MagneticOrderingsToDB uuid4 (pf_structure p)
                         (vasp_input_set_kwargs a) (perform_bader a))
                      ((λ k, S (2 * k)) <$> seq 0 (length pool))])
           (reduced_formula (structure a) +:+ " - magnetic orderings")
           (Some (uuid4, "magnetic_orderings", "1.3"))
           ["magnetic_orderings group: >>" +:+ uuid4 +:+ "<<"].
Proof.
  intros (p & dpool & Hpool & Hfin)%get_wf_inv.
  apply candidate_pool_ok in Hpool as [Hsan _].
  apply sanitize_and_profile_ok in Hsan as Hinv.
  destruct Hinv as (_ & _ & _ & _ & _ & Hformula & _).
  apply finish_inv in Hfin as (_ & indexes & fws & parents & Hprov & Hloop & ->).
  apply add_chain_loop_lookup in Hloop as (Hlen & _ & Hpar & Hnodes).
  simpl in Hlen, Hpar, Hnodes, Hprov. rewrite enumerate_length in Hlen, Hpar.
  exists p, fws. split; [done|]. split; [lia|]. split.
  - intros k s Hs.
    destruct (Hnodes k k s) as (index & Hindex & Hr & Hst);
      [by apply enumerate_lookup|].
    apply lookup_lt_Some in Hs as Hk.
    rewrite (track_provenance_indexes _ _ _ _ _ _ _ k Hprov Hk) in Hindex.
    injection Hindex as <-. done.
  - simpl. rewrite Hformula, Hpar. replace (length fws) with (2 * length pool) by lia.
    done.
Qed.

(** X19.  The layout of the returned graph.  It has two nodes per candidate
    and one more; candidate [k] has its relax node at position and with
    identity [2k], without predecessors, and its static node right after
    it, depending on [2k]; both are named after the candidate's entry of
    [indexes], which is its position in the final pool, or -1 for the
    appended input, and after its ordering; the static node always asks for
    the Bader analysis. *)
Theorem node_layout a wf i pool log :
  run (get_wf_magnetic_orderings a) = (Ok (wf, i, pool), log) →
  length (wf_fws wf) = 2 * length pool + 1
  ∧ ∀ k s, pool !! k = Some s →
      (∃ rx, wf_fws wf !! (2 * k) = Some rx
             ∧ fw_id rx = 2 * k
             ∧ fw_name rx
               = candidate_name (index_at i (length pool) k) s +:+ " optimize"
             ∧ is_relax rx = true ∧ fw_structure rx = Some s
             ∧ fw_parents rx = [])
      ∧ wf_fws wf !! S (2 * k)
        = Some (mkFirework (S (2 * k))
                  (candidate_name (index_at i (length pool) k) s +:+ " static")
                  (StaticTask s true) [2 * k]).
Proof.
  intros (p & fws & _ & Hlen & Hnodes & ->)%returned_workflow_inv. simpl. split.
  - rewrite length_app. simpl. lia.
  - intros k s Hs. destruct (Hnodes k s Hs) as [Hr Hst].
    apply lookup_lt_Some in Hs.
    rewrite !lookup_app_l by lia. split; [|done].
    eexists. split; [exact Hr|]. done.
Qed.

(** X20.  The analysis node and the annotations of the returned graph.  The
    node comes last, depends on exactly the static nodes, and carries the
    structure with the [cn] property and the caller's [perform_bader]; the
    run identifier in it, in the metadata and in the tag is the same; the
    graph is named after the reduced formula of the input as given. *)
Theorem analysis_node_and_annotations a wf i pool log :
  run (get_wf_magnetic_orderings a) = (Ok (wf, i, pool), log) →
  ∃ p agg strategy,
    run (sanitize_and_profile a) = (Ok p, []) ∧
    wf_fws wf !! (2 * length pool) = Some agg ∧
    fw_id agg = 2 * length pool ∧
    fw_name agg = "Magnetic Orderings Analysis" ∧
    fw_task agg
      = MagneticOrderingsToDB uuid4 (pf_structure p) strategy (perform_bader a) ∧
    fw_parents agg = (λ k, S (2 * k)) <$> seq 0 (length pool) ∧
    wf_name wf = reduced_formula (structure a) +:+ " - magnetic orderings" ∧
    wf_meta wf = Some (uuid4, "magnetic_orderings", "1.3") ∧
    wf_tags wf = ["magnetic_orderings group: >>" +:+ uuid4 +:+ "<<"].
Proof.
  intros (p & fws & Hsan & Hlen & _ & ->)%returned_workflow_inv. simpl.
  exists p. eexists _, _. split; [done|]. split.
  - rewrite lookup_app_r by lia. by rewrite Hlen, Nat.sub_diag.
  - done.
Qed.

Lemma relax_node_inv a wf i pool log fw s kw :
  run (get_wf_magnetic_orderings a) = (Ok (wf, i, pool), log) →
  fw ∈ wf_fws wf → fw_task fw = OptimizeTask s kw →
  s ∈ pool ∧ kw = relax_vis_kwargs a (candidate_ordering s).
Proof.
  intros (p & fws & _ & Hlen & Hnodes & ->)%returned_workflow_inv. simpl.
  intros [Hin | ->%list_elem_of_singleton]%elem_of_app Htask; [|done].
  apply list_elem_of_lookup in Hin as [j Hj].
  apply lookup_lt_Some in Hj as Hlt.
  assert (j / 2 < length pool) as Hk by (apply Nat.Div0.div_lt_upper_bound; lia).
  destruct (lookup_lt_is_Some_2 _ _ Hk) as [s' Hs'].
  destruct (Hnodes _ _ Hs') as [Hr Hst].
  pose proof (Nat.div_mod_eq j 2) as Hdiv.
  pose proof (Nat.mod_upper_bound j 2) as Hmod.
  destruct (decide (j mod 2 = 0)) as [H0 | H1].
  - replace (2 * (j / 2)) with j in Hr by lia.
    rewrite Hj in Hr. injection Hr as ->. simpl in Htask.
    injection Htask as <- <-. split; [by eapply list_elem_of_lookup_2 | done].
  - replace (S (2 * (j / 2))) with j in Hst by lia.
    rewrite Hj in Hst. injection Hst as ->. done.
Qed.

Lemma relax_vis_kwargs_default a o :
  vasp_input_set_kwargs a = None ∨ vasp_input_set_kwargs a = Some ∅ →
  relax_vis_kwargs a o =
  {[ "user_incar_settings" :=
       if bool_decide (o = NM) then <["ISPIN" := 1%Z]> default_incar
       else default_incar ]}.
Proof.
  intros Hnone. unfold relax_vis_kwargs.
  assert (match vasp_input_set_kwargs a with
          | Some user => if bool_decide (user = ∅)
                         then ({[ "user_incar_settings" := default_incar ]}
                                 : gmap string incar)
                         else user ∪ {[ "user_incar_settings" := default_incar ]}
          | None => {[ "user_incar_settings" := default_incar ]}
          end = {[ "user_incar_settings" := default_incar ]}) as Hkw.
  { destruct Hnone as [-> | ->]; [done|]. by rewrite bool_decide_true. }
  unfold default_incar in *. rewrite Hkw.
  case_bool_decide; [|done].
  apply map_eq. intros key. rewrite lookup_alter.
  case_decide as Hkey; [subst key|].
  - by rewrite !lookup_singleton_eq.
  - by rewrite !lookup_singleton_ne.
Qed.

Lemma relax_vis_kwargs_user a o user :
  vasp_input_set_kwargs a = Some user →
  (∀ uinc, user !! "user_incar_settings" = Some uinc →
     relax_vis_kwargs a o !! "user_incar_settings"
       = Some (if bool_decide (o = NM) then <["ISPIN" := 1%Z]> uinc else uinc))
  ∧ (∀ key, key ≠ "user_incar_settings" →
       relax_vis_kwargs a o !! key = user !! key).
Proof.
  intros Huser. unfold relax_vis_kwargs. rewrite Huser.
  split.
  - intros uinc Hu.
    assert (user ≠ ∅) as Hne by (intros ->; by rewrite lookup_empty in Hu).
    rewrite (bool_decide_false (user = ∅)) by done.
    case_bool_decide.
    + rewrite lookup_alter. rewrite decide_True by done.
      erewrite lookup_union_Some_l by exact Hu. done.
    + by erewrite lookup_union_Some_l by exact Hu.
  - intros key Hkey.
    match goal with
    | |- (if _ then alter _ _ ?k else _) !! _ = _ => remember k as kw0 eqn:Hkw0
    end.
    assert (kw0 !! key = user !! key) as Hkw.
    { subst kw0. case_bool_decide as He.
      - rewrite He, lookup_empty. by rewrite lookup_singleton_ne.
      - rewrite lookup_union_l; [done|]. by rewrite lookup_singleton_ne. }
    destruct (bool_decide (o = NM)); [|exact Hkw].
    rewrite lookup_alter. rewrite decide_False by done. exact Hkw.
Qed.

(** X21.  The INCAR settings of the relax nodes.  Every relax node belongs to
    a candidate of the final pool and always has [user_incar_settings],
    with ISPIN = 1 when the candidate is classified non-magnetic.  When the
    caller gives no [user_incar_settings] the settings are ISYM = 0 and
    LASPH = True, plus that ISPIN.  When the caller gives one and no
    candidate is non-magnetic (so that line 445 never writes into the
    caller's dictionary), it replaces these defaults: it is not merged with
    them.  The caller's other keywords pass through. *)
Theorem relax_input_settings a wf i pool log fw s kw :
  run (get_wf_magnetic_orderings a) = (Ok (wf, i, pool), log) →
  fw ∈ wf_fws wf → fw_task fw = OptimizeTask s kw →
  s ∈ pool
  ∧ (∃ inc, kw !! "user_incar_settings" = Some inc ∧
            (candidate_ordering s = NM → inc !! "ISPIN" = Some 1%Z))
  ∧ (vasp_input_set_kwargs a = None
     ∨ (∃ user, vasp_input_set_kwargs a = Some user
                ∧ user !! "user_incar_settings" = None) →
     kw !! "user_incar_settings"
       = Some (if bool_decide (candidate_ordering s = NM)
               then <["ISPIN" := 1%Z]> default_incar else default_incar))
  ∧ (∀ user uinc,
       vasp_input_set_kwargs a = Some user →
       user !! "user_incar_settings" = Some uinc →
       Forall (λ t, candidate_ordering t ≠ NM) pool →
       kw !! "user_incar_settings" = Some uinc)
  ∧ (∀ user key,
       vasp_input_set_kwargs a = Some user → key ≠ "user_incar_settings" →
       kw !! key = user !! key).
Proof.
  intros Hrun Hin Htask.
  destruct (relax_node_inv _ _ _ _ _ _ _ _ Hrun Hin Htask) as [Hs ->].
  assert (∀ user, vasp_input_set_kwargs a = Some user →
            user !! "user_incar_settings" = None →
            relax_vis_kwargs a (candidate_ordering s) !! "user_incar_settings"
              = Some (if bool_decide (candidate_ordering s = NM)
                      then <["ISPIN" := 1%Z]> default_incar else default_incar))
    as Hnokey.
  { intros user Huser Hu. unfold relax_vis_kwargs. rewrite Huser.
    match goal with
    | |- (if _ then alter _ _ ?k else _) !! _ = _ => remember k as kw0 eqn:Hkw0
    end.
    assert (kw0 !! "user_incar_settings" = Some default_incar) as Hkw.
    { subst kw0. case_bool_decide.
      - by rewrite lookup_singleton_eq.
      - rewrite lookup_union_r by done. by rewrite lookup_singleton_eq. }
    destruct (bool_decide (candidate_ordering s = NM)); [|exact Hkw].
    rewrite lookup_alter, decide_True by done. by rewrite Hkw. }
  assert (vasp_input_set_kwargs a = None →
            relax_vis_kwargs a (candidate_ordering s) !! "user_incar_settings"
              = Some (if bool_decide (candidate_ordering s = NM)
                      then <["ISPIN" := 1%Z]> default_incar else default_incar))
    as Hnone.
  { intros Hn. rewrite (relax_vis_kwargs_default a _ (or_introl Hn)).
    by rewrite lookup_singleton_eq. }
  split; [done|]. split; [|split; [|split]].
  - destruct (vasp_input_set_kwargs a) as [user|] eqn:Huser.
    + destruct (user !! "user_incar_settings") as [uinc|] eqn:Hu.
      * destruct (relax_vis_kwargs_user a (candidate_ordering s) user Huser)
          as [Hincar _].
        rewrite (Hincar uinc Hu). eexists. split; [done|].
        intros Hnm. rewrite bool_decide_true by done. by rewrite lookup_insert_eq.
      * rewrite (Hnokey user eq_refl Hu). eexists. split; [done|].
        intros Hnm. rewrite bool_decide_true by done. by rewrite lookup_insert_eq.
    + rewrite (Hnone eq_refl). eexists. split; [done|].
      intros Hnm. rewrite bool_decide_true by done. by rewrite lookup_insert_eq.
  - intros [Hn | (user & Huser & Hu)]; [by apply Hnone | by apply (Hnokey user)].
  - intros user uinc Huser Hu Hall.
    destruct (relax_vis_kwargs_user a (candidate_ordering s) user Huser) as [Hincar _].
    rewrite (Hincar uinc Hu).
    rewrite bool_decide_false; [done|].
    eapply Forall_forall in Hall; [exact Hall | exact Hs].
  - intros user key Huser Hkey.
    by apply (relax_vis_kwargs_user a (candidate_ordering s) user Huser).
Qed.

End Nodes.

(** * The further properties at concrete inputs *)

Section MoreInstances.
Import Example.

(** X1 for an input with partial occupancies. *)
Lemma disordered_input_fails_witness :
  run (get_wf_magnetic_orderings (H:=disordered) (args_of NiO_afm))
    = (Raise (ValueError
                "Please obtain an ordered approximation of the input structure (NiO)."),
       []).
Proof.
  apply (disordered_input_fails (H:=disordered) (args_of NiO_afm)). reflexivity.
Defined.

(** X2 for an input with vector moments. *)
Lemma noncollinear_input_fails_witness :
  run (get_wf_magnetic_orderings (H:=noncollinear) (args_of NiO_afm))
    = (Raise (ValueError "Input structure (NiO) is non-collinear."), []).
Proof.
  apply (noncollinear_input_fails (H:=noncollinear) (args_of NiO_afm));
    reflexivity.
Defined.

(** X3 for a cell of oxygen only. *)
Lemma no_magnetic_sites_divides_by_zero_witness :
  run (get_wf_magnetic_orderings (H:=rock_salt) (args_of oxide_only))
    = (Raise ZeroDivisionError, []).
Proof.
  apply (no_magnetic_sites_divides_by_zero (H:=rock_salt) (args_of oxide_only)).
  - reflexivity.
  - reflexivity.
  - vm_compute. lia.
  - vm_compute. reflexivity.
  - left. reflexivity.
Defined.

(** X4 at NiO: the nickel sites keep the octahedral 6, the oxygen sites
    get 0. *)
Lemma coordination_numbers_of_sites_witness :
  pf_cns (profile_of rock_salt (args_of NiO_afm)) = [6; 6; 0; 0]%Z
  ∧ (6%Z ∈ pf_unique_cns (profile_of rock_salt (args_of NiO_afm)) ↔
     6%Z ≠ 0%Z ∧
     ∃ i st,
       sites (sanitized_structure (H:=rock_salt) (args_of NiO_afm)) !! i = Some st ∧
       specie st ∈ an_types_of_magnetic_specie
                     (analyzer_of (H:=rock_salt) (args_of NiO_afm)) ∧
       get_cn (Pymatgen:=rock_salt)
              (sanitized_structure (H:=rock_salt) (args_of NiO_afm)) i = 6%Z).
Proof.
  split; [vm_compute; reflexivity|].
  apply (coordination_numbers_of_sites (H:=rock_salt) (args_of NiO_afm)
           (profile_of rock_salt (args_of NiO_afm))).
  vm_compute. reflexivity.
Defined.

(** X6 at NiO. *)
Lemma pool_is_seed_then_calls_witness :
  ∃ fm raw,
    run (ferromagnetic_seed (profile_of rock_salt (args_of NiO_afm))) = (Ok fm, []) ∧
    raw = fm :: flat_map (added_structures (H:=rock_salt))
                         (log_of rock_salt (args_of NiO_afm)) ∧
    Forall (λ c, call_ok (H:=rock_salt) c = true) (log_of rock_salt (args_of NiO_afm)) ∧
    pool_of rock_salt (args_of NiO_afm) = remove_duplicates (H:=rock_salt) raw.
Proof.
  apply (pool_is_seed_then_calls (H:=rock_salt) (args_of NiO_afm)).
  vm_compute. reflexivity.
Defined.

(** X7 with a generator that times out at its first call. *)
Lemma generator_failure_ends_run_witness :
  (run (get_wf_magnetic_orderings (H:=rock_salt_timeout) (args_of NiO_afm))).1
    = Raise (GeneratorError "timeout").
Proof.
  assert (run (get_wf_magnetic_orderings (H:=rock_salt_timeout) (args_of NiO_afm))
          = ((run (get_wf_magnetic_orderings (H:=rock_salt_timeout)
                     (args_of NiO_afm))).1,
             log_of rock_salt_timeout (args_of NiO_afm))) as Hrun
    by (vm_compute; reflexivity).
  apply (generator_failure_ends_run (H:=rock_salt_timeout) _ _ _
           (call_of rock_salt_timeout (args_of NiO_afm) 0)
           (GeneratorError "timeout") Hrun).
  - apply (list_elem_of_lookup_2 _ 0). vm_compute. reflexivity.
  - reflexivity.
Defined.

(** X8 at NiO. *)
Lemma calls_share_parameters_witness :
  ec_timeout (call_of rock_salt (args_of NiO_afm) 0) = None
  ∧ ec_return_ranked_list (call_of rock_salt (args_of NiO_afm) 0) = 10%Z.
Proof.
  assert (run (get_wf_magnetic_orderings (H:=rock_salt) (args_of NiO_afm))
          = ((run (get_wf_magnetic_orderings (H:=rock_salt) (args_of NiO_afm))).1,
             log_of rock_salt (args_of NiO_afm))) as Hrun
    by (vm_compute; reflexivity).
  apply (calls_share_parameters (H:=rock_salt) _ _ _
           (call_of rock_salt (args_of NiO_afm) 0) Hrun).
  apply (list_elem_of_lookup_2 _ 0). vm_compute. reflexivity.
Defined.

(** X9 for nickel and iron on equivalent sites: two species, so one call
    for each after the antiferromagnetic one. *)
Lemma ferri_by_species_branch_witness :
  length (log_of two_species (args_of NiFeO)) = 3.
Proof.
  destruct (ferri_by_species_branch (H:=two_species) (args_of NiFeO)
              (profile_of two_species (args_of NiFeO))
              (pool_of two_species (args_of NiFeO))
              (log_of two_species (args_of NiFeO)))
    as (first & rest & Hlog & _).
  - vm_compute. reflexivity.
  - vm_compute. reflexivity.
  - vm_compute. reflexivity.
  - vm_compute. lia.
  - vm_compute. reflexivity.
Defined.

(** X10 for the two by-environment calls of the spinel-like cell. *)
Lemma ferrimagnetic_families_exclusive_witness :
  site_constraint_name
    (constraint_of (call_of spinel_like (args_of NiO_afm) 1) 0)
  = site_constraint_name
      (constraint_of (call_of spinel_like (args_of NiO_afm) 2) 0).
Proof.
  assert (run (get_wf_magnetic_orderings (H:=spinel_like) (args_of NiO_afm))
          = ((run (get_wf_magnetic_orderings (H:=spinel_like) (args_of NiO_afm))).1,
             log_of spinel_like (args_of NiO_afm))) as Hrun
    by (vm_compute; reflexivity).
  apply (ferrimagnetic_families_exclusive (H:=spinel_like) _ _ _
           (call_of spinel_like (args_of NiO_afm) 1)
           (call_of spinel_like (args_of NiO_afm) 2)
           (constraint_of (call_of spinel_like (args_of NiO_afm) 1) 0)
           (constraint_of (call_of spinel_like (args_of NiO_afm) 1) 1)
           (constraint_of (call_of spinel_like (args_of NiO_afm) 2) 0)
           (constraint_of (call_of spinel_like (args_of NiO_afm) 2) 1) Hrun).
  - apply (list_elem_of_lookup_2 _ 1). vm_compute. reflexivity.
  - apply (list_elem_of_lookup_2 _ 2). vm_compute. reflexivity.
  - vm_compute. reflexivity.
  - vm_compute. reflexivity.
Defined.

(** X11 at NiO with the motif-based attempts requested. *)
Lemma afm_by_motif_branch_witness :
  ec_order_parameter
    <$> log_of rock_salt (with_afm_by_motif (args_of NiO_afm))
  = [ [mkConstraint op_half (Some (Many ["Ni"])) None None];
      [mkConstraint op_half None (Some "cn") (Some (One 6%Z))] ].
Proof.
  destruct (afm_by_motif_branch (H:=rock_salt) (with_afm_by_motif (args_of NiO_afm))
              (profile_of rock_salt (with_afm_by_motif (args_of NiO_afm)))
              (pool_of rock_salt (with_afm_by_motif (args_of NiO_afm)))
              (log_of rock_salt (with_afm_by_motif (args_of NiO_afm))))
    as [Hon _].
  - vm_compute. reflexivity.
  - destruct (Hon eq_refl) as (front & Hlog & _). vm_compute. reflexivity.
Defined.

(** X12 at NiO: one species in one environment. *)
Lemma single_antiferromagnetic_call_witness :
  length (log_of rock_salt (args_of NiO_afm)) = 1.
Proof.
  rewrite (single_antiferromagnetic_call (H:=rock_salt) (args_of NiO_afm)
             (profile_of rock_salt (args_of NiO_afm))
             (pool_of rock_salt (args_of NiO_afm))
             (log_of rock_salt (args_of NiO_afm))).
  - reflexivity.
  - vm_compute. reflexivity.
  - right. split; [reflexivity|]. split; vm_compute; lia.
  - reflexivity.
Defined.

(** X14 to X16 for three candidates displaced by one unit each and a
    matcher with a tolerance of one unit. *)
Lemma remove_duplicates_keeps_one_witness :
  remove_duplicates (H:=tolerant) [shifted 0; shifted 1; shifted 2] ≠ [].
Proof. apply (remove_duplicates_keeps_one (H:=tolerant)). discriminate. Defined.

Lemma remove_duplicates_keeps_head_witness :
  head (remove_duplicates (H:=tolerant) [shifted 0; shifted 1; shifted 2])
    = Some (shifted 0).
Proof.
  apply (remove_duplicates_keeps_head (H:=tolerant)
           [shifted 0; shifted 1; shifted 2]).
  vm_compute. reflexivity.
Defined.

Lemma removed_entry_has_survivor_witness :
  ∃ k s, k < 1 ∧ [shifted 0; shifted 1; shifted 2] !! k = Some s
         ∧ (k ∉ structures_to_remove (H:=tolerant) [shifted 0; shifted 1; shifted 2])
         ∧ matches (Pymatgen:=tolerant) s (shifted 1) = true.
Proof.
  apply (removed_entry_has_survivor (H:=tolerant)
           [shifted 0; shifted 1; shifted 2] 1 (shifted 1)).
  - vm_compute. reflexivity.
  - reflexivity.
  - apply (list_elem_of_lookup_2 _ 0). vm_compute. reflexivity.
Defined.

(** X18 to X21 at NiO with an antiferromagnetic input, which the generator
    finds as its first ordering. *)
Lemma provenance_index_meaning_witness :
  an_ordering (input_analyzer_of (H:=rock_salt) (args_of NiO_afm)) ≠ NM.
Proof.
  apply (provenance_index_meaning (H:=rock_salt) (args_of NiO_afm)
           (workflow_of rock_salt (args_of NiO_afm))
           (index_of rock_salt (args_of NiO_afm))
           (final_pool_of rock_salt (args_of NiO_afm))
           (log_of rock_salt (args_of NiO_afm))).
  vm_compute. reflexivity.
Defined.

Lemma node_layout_witness :
  length (wf_fws (workflow_of rock_salt (args_of NiO_afm)))
    = 2 * length (final_pool_of rock_salt (args_of NiO_afm)) + 1.
Proof.
  apply (node_layout (H:=rock_salt) (args_of NiO_afm)
           (workflow_of rock_salt (args_of NiO_afm))
           (index_of rock_salt (args_of NiO_afm))
           (final_pool_of rock_salt (args_of NiO_afm))
           (log_of rock_salt (args_of NiO_afm))).
  vm_compute. reflexivity.
Defined.

Lemma analysis_node_and_annotations_witness :
  wf_name (workflow_of rock_salt (args_of NiO_afm)) = "NiO - magnetic orderings".
Proof.
  destruct (analysis_node_and_annotations (H:=rock_salt) (args_of NiO_afm)
              (workflow_of rock_salt (args_of NiO_afm))
              (index_of rock_salt (args_of NiO_afm))
              (final_pool_of rock_salt (args_of NiO_afm))
              (log_of rock_salt (args_of NiO_afm)))
    as (p & agg & strategy & _ & _ & _ & _ & _ & _ & Hname & _).
  - vm_compute. reflexivity.
  - exact Hname.
Defined.

Lemma relax_input_settings_witness :
  structure_of (node_of rock_salt (args_of NiO_afm) 0)
    ∈ final_pool_of rock_salt (args_of NiO_afm).
Proof.
  apply (relax_input_settings (H:=rock_salt) (args_of NiO_afm)
           (workflow_of rock_salt (args_of NiO_afm))
           (index_of rock_salt (args_of NiO_afm))
           (final_pool_of rock_salt (args_of NiO_afm))
           (log_of rock_salt (args_of NiO_afm))
           (node_of rock_salt (args_of NiO_afm) 0)
           (structure_of (node_of rock_salt (args_of NiO_afm) 0))
           (kwargs_of (node_of rock_salt (args_of NiO_afm) 0))).
  - vm_compute. reflexivity.
  - apply (list_elem_of_lookup_2 _ 0). vm_compute. reflexivity.
  - vm_compute. reflexivity.
Defined.

End MoreInstances.
